(** * An append-only file of checksummed, cookie-framed chunks

    Shallow embedding of the Go package [aof]: the wire codec
    ([encodeU16], [encodeU32], [readU8], [readU16], [readU32]), the
    append engine ([Append]), the resynchronizing scanner ([Lookup],
    [isCookie]) and the handle lifecycle ([Close]).

    Bytes are [Byte.byte]; Go's fixed-width integers are [Z] with the
    wrap-around of every operation that can leave the range written
    out; a file is the list of its bytes. *)

From Stdlib Require Import ZArith List Bool Lia.
From coqutil Require Import Byte Z.bitblast.
Import ListNotations.
Local Open Scope Z_scope.

(** ** Fixed-width integers *)

Module Int.

(** [uint16(x)]: conversion to an unsigned 16-bit integer. *)
Definition uint16 (z : Z) : Z := z mod 2 ^ 16.

Definition max_int64 : Z := 2 ^ 63 - 1.

(** The value of a signed 64-bit integer after an operation whose
    mathematical result is [z]. *)
Definition int64 (z : Z) : Z := (z + 2 ^ 63) mod 2 ^ 64 - 2 ^ 63.

(** [a + b] on [int64]. *)
Definition add64 (a b : Z) : Z := int64 (a + b).

End Int.

(** ** Errors *)

Inductive error : Type :=
| EOF                           (* io.EOF *)
| ErrUnexpectedEOF              (* io.ErrUnexpectedEOF *)
| ErrChunkSizeLimitExceeded     (* the package's own error *)
| ErrSys (errno : Z).           (* any other error of the operating system *)

Definition error_eqb (a b : error) : bool :=
  match a, b with
  | EOF, EOF => true
  | ErrUnexpectedEOF, ErrUnexpectedEOF => true
  | ErrChunkSizeLimitExceeded, ErrChunkSizeLimitExceeded => true
  | ErrSys m, ErrSys n => m =? n
  | _, _ => false
  end.

(** ** Constants of the package *)

Definition magicCookie : Z := 0x24716296.
Definition maxChunkSize : Z := 1024.
Definition chunkMetadataSize : Z := 10.

(** ** encoding/binary, big endian *)

Module BigEndian.

(** [PutUint16]: [b[0] = byte(v >> 8); b[1] = byte(v)]. *)
Definition PutUint16 (v : Z) : list byte :=
  [byte.of_Z (Z.shiftr v 8); byte.of_Z v].

(** [PutUint32]: [b[0] = byte(v >> 24)] down to [b[3] = byte(v)]. *)
Definition PutUint32 (v : Z) : list byte :=
  [byte.of_Z (Z.shiftr v 24); byte.of_Z (Z.shiftr v 16);
   byte.of_Z (Z.shiftr v 8); byte.of_Z v].

(** [Uint16(b) = uint16(b[1]) | uint16(b[0])<<8]; a slice shorter than
    two bytes makes Go panic, which the callers here never cause (they
    pass a buffer of two bytes): the model answers 0. *)
Definition Uint16 (b : list byte) : Z :=
  match b with
  | [b0; b1] => Z.lor (byte.unsigned b1) (Z.shiftl (byte.unsigned b0) 8)
  | _ => 0
  end.

(** [Uint32(b) = uint32(b[3]) | uint32(b[2])<<8 | uint32(b[1])<<16 |
    uint32(b[0])<<24]. *)
Definition Uint32 (b : list byte) : Z :=
  match b with
  | [b0; b1; b2; b3] =>
      Z.lor (Z.lor (Z.lor (byte.unsigned b3) (Z.shiftl (byte.unsigned b2) 8))
                   (Z.shiftl (byte.unsigned b1) 16))
            (Z.shiftl (byte.unsigned b0) 24)
  | _ => 0
  end.

End BigEndian.

Definition encodeU16 (n : Z) : list byte := BigEndian.PutUint16 n.
Definition encodeU32 (n : Z) : list byte := BigEndian.PutUint32 n.

(** ** hash/crc32, IEEE polynomial

    The digest that [crc32.NewIEEE] returns holds a [uint32]; [Write]
    replaces it by [Update] of it, and [Sum32] reads it.  [Update] is the
    library's byte-at-a-time table computation
    ([crc = ^crc; crc = tab[byte(crc)^v] ^ (crc >> 8); return ^crc]),
    with the table entry computed as the library fills it. *)

Module crc32.

(** The IEEE polynomial, bit-reversed. *)
Definition IEEE : Z := 0xedb88320.

Definition shift_xor (crc : Z) : Z :=
  if Z.testbit crc 0 then Z.lxor (Z.shiftr crc 1) IEEE else Z.shiftr crc 1.

(** Entry [i] of the table: eight rounds of shift and conditional xor. *)
Definition tab (i : Z) : Z :=
  shift_xor (shift_xor (shift_xor (shift_xor
    (shift_xor (shift_xor (shift_xor (shift_xor i))))))).

(** [^crc] on [uint32]. *)
Definition not32 (crc : Z) : Z := Z.lxor crc 0xffffffff.

Definition update_byte (crc : Z) (v : byte) : Z :=
  Z.lxor (tab (Z.lxor (Z.land crc 0xff) (byte.unsigned v))) (Z.shiftr crc 8).

Definition Update (crc : Z) (p : list byte) : Z :=
  not32 (fold_left update_byte p (not32 crc)).

Definition NewIEEE : Z := 0.
Definition Write (d : Z) (p : list byte) : Z := Update d p.
Definition Sum32 (d : Z) : Z := d.

(** [crc32.ChecksumIEEE]: the checksum of a whole message. *)
Definition ChecksumIEEE (p : list byte) : Z := Update 0 p.

End crc32.

(** ** io: the read handle

    The read handle is an open file: its state is the bytes not yet read
    (the file from the cursor on).  [Seek] moves the cursor; a read takes
    bytes from the front. *)

Module io.

(** [EINVAL], the error of a seek to a negative position. *)
Definition EINVAL : Z := 22.

(** [rfile.Seek(offset, 0)] on [file]: the new position and the handle
    positioned there.  A position after the end is allowed (reads there
    find the end of the file); a negative one is an error. *)
Definition Seek (file : list byte) (offset : Z) : error + (Z * list byte) :=
  if offset <? 0 then inl (ErrSys EINVAL)
  else inr (offset, skipn (Z.to_nat offset) file).

(** [io.ReadFull(r, buf)] with [len(buf) = n]: exactly [n] bytes, or
    [EOF] when no byte was read, or [ErrUnexpectedEOF] when the file
    ended after some but not all.  With [n = 0] nothing is read. *)
Definition ReadFull (r : list byte) (n : nat) : error + (list byte * list byte) :=
  match n with
  | O => inr ([], r)
  | S _ =>
      match r with
      | [] => inl EOF
      | _ :: _ =>
          if (length r <? n)%nat then inl ErrUnexpectedEOF
          else inr (firstn n r, skipn n r)
      end
  end.

End io.

(** ** The readers of the wire codec *)

(** The [if err == io.ErrUnexpectedEOF { return io.EOF }; return err] of
    every reader. *)
Definition eof_of_unexpected (err : error) : error :=
  if error_eqb err ErrUnexpectedEOF then EOF else err.

Definition readU8 (r : list byte) : error + (byte * list byte) :=
  match io.ReadFull r 1 with
  | inl err => inl (eof_of_unexpected err)
  | inr (buf, r') => inr (nth 0 buf Byte.x00, r')
  end.

Definition readU16 (r : list byte) : error + (Z * list byte) :=
  match io.ReadFull r 2 with
  | inl err => inl (eof_of_unexpected err)
  | inr (buf, r') => inr (BigEndian.Uint16 buf, r')
  end.

Definition readU32 (r : list byte) : error + (Z * list byte) :=
  match io.ReadFull r 4 with
  | inl err => inl (eof_of_unexpected err)
  | inr (buf, r') => inr (BigEndian.Uint32 buf, r')
  end.

(** ** The scanner *)

(** [sync[i]] and [sync[i] = c] on the four-byte window.  The indices the
    code uses are [x & 3], within the window. *)
Definition index (sync : list byte) (i : Z) : byte :=
  nth (Z.to_nat i) sync Byte.x00.

Fixpoint store_nat (sync : list byte) (i : nat) (c : byte) : list byte :=
  match sync, i with
  | [], _ => []
  | _ :: t, O => c :: t
  | h :: t, S i' => h :: store_nat t i' c
  end.

Definition store (sync : list byte) (i : Z) (c : byte) : list byte :=
  store_nat sync (Z.to_nat i) c.

Definition isCookie (sync : list byte) (sp : Z) : bool :=
  (byte.unsigned (index sync (Z.land sp 3)) =? 0x24) &&
  (byte.unsigned (index sync (Z.land (Int.add64 sp 1) 3)) =? 0x71) &&
  (byte.unsigned (index sync (Z.land (Int.add64 sp 2) 3)) =? 0x62) &&
  (byte.unsigned (index sync (Z.land (Int.add64 sp 3) 3)) =? 0x96).

(** The inner loop of [Lookup] (lines 155-168): until the window holds
    the cookie, read one more byte over the oldest one.  [r] is the read
    handle; the [match] on it is [readU8] ([readU8_unfold] below), written
    out so that the recursion is on the bytes left to read.  The result is
    the offset where the cookie begins and the handle after it. *)
Fixpoint seek_cookie (r : list byte) (sync : list byte) (sp offset : Z)
  : error + (Z * list byte) :=
  if isCookie sync sp then inr (offset, r)
  else
    match r with
    | [] => inl EOF
    | c :: r' =>
        seek_cookie r' (store sync (Z.land sp 3) c)
                    (Int.add64 sp 1) (Int.add64 offset 1)
    end.

(** What one pass of the outer loop of [Lookup] does. *)
Inductive step : Type :=
| Return (b : list byte) (next : Z)   (* return b, next, nil *)
| Fail (err : error)                  (* return nil, 0, err *)
| Continue (offset : Z).              (* continue, with the new offset *)

(** The pass of the outer loop of [Lookup] from the cookie on (lines
    170-214): [offset] is where the cookie begins and [r] the read handle
    after it.  The second component lists the lengths of the payload
    buffers made ([b := make([]byte, size)], line 191). *)
Definition Lookup_chunk (r : list byte) (offset : Z) : step * list Z :=
  let checksum := crc32.NewIEEE in
  let checksum := crc32.Write checksum (encodeU32 magicCookie) in
  match readU16 r with
  | inl err => (Fail err, [])
  | inr (size, r) =>
      if size >? maxChunkSize then (Continue (Int.add64 offset 1), [])
      else
        let checksum := crc32.Write checksum (encodeU16 size) in
        match io.ReadFull r (Z.to_nat size) with
        | inl err => (Fail (eof_of_unexpected err), [size])
        | inr (b, r) =>
            let checksum := crc32.Write checksum b in
            match readU32 r with
            | inl err => (Fail err, [size])
            | inr (chunkChecksum, r) =>
                if negb (crc32.Sum32 checksum =? chunkChecksum)
                then (Continue (Int.add64 offset 1), [size])
                else (Return b (Int.add64 (Int.add64 offset chunkMetadataSize)
                                          (Z.of_nat (length b))),
                      [size])
            end
        end
  end.

(** One pass of the outer [for] of [Lookup] (lines 130-214): the seek,
    the search of the cookie (lines 130-168), then [Lookup_chunk]. *)
Definition Lookup_pass (rfile : list byte) (offset : Z) : step * list Z :=
  match io.Seek rfile offset with
  | inl err => (Fail err, [])
  | inr (ret, r) =>
      if negb (ret =? offset) then (Fail EOF, []) else
      match io.ReadFull r 4 with
      | inl err => (Fail (eof_of_unexpected err), [])
      | inr (sync, r) =>
          match seek_cookie r sync 0 offset with
          | inl err => (Fail err, [])
          | inr (offset, r) => Lookup_chunk r offset
          end
      end
  end.

(** The outer loop, with a bound on the number of passes; [None] when the
    bound is reached. *)
Fixpoint Lookup_loop (fuel : nat) (rfile : list byte) (offset : Z)
  : option (error + (list byte * Z)) :=
  match fuel with
  | O => None
  | S fuel' =>
      match fst (Lookup_pass rfile offset) with
      | Return b next => Some (inr (b, next))
      | Fail err => Some (inl err)
      | Continue offset' => Lookup_loop fuel' rfile offset'
      end
  end.

(** [Lookup]: one pass more than the file has bytes is enough for every
    file whose length is an [int64]. *)
Definition Lookup (rfile : list byte) (offset : Z) : option (error + (list byte * Z)) :=
  Lookup_loop (S (length rfile)) rfile offset.

(** ** The append engine *)

(** [io.Writer]: [Write] hands the bytes to the handle and reports an
    error or none. *)
Class Writer (W : Type) : Type :=
  Write : W -> list byte -> W * option error.

(** A file open with [O_APPEND]: every write lands at the end. *)
#[export] Instance file_Writer : Writer (list byte) :=
  fun file p => (file ++ p, None).

Section Append.

Context {W : Type} `{Writer W}.

Definition Append (wfile : W) (b : list byte) : W * option error :=
  if Z.of_nat (length b) >? maxChunkSize then (wfile, Some ErrChunkSizeLimitExceeded)
  else
    let checksum := crc32.NewIEEE in
    let checksum := crc32.Write checksum (encodeU32 magicCookie) in
    match Write wfile (encodeU32 magicCookie) with
    | (wfile, Some err) => (wfile, Some err)
    | (wfile, None) =>
        let checksum :=
          crc32.Write checksum (encodeU16 (Int.uint16 (Z.of_nat (length b)))) in
        match Write wfile (encodeU16 (Int.uint16 (Z.of_nat (length b)))) with
        | (wfile, Some err) => (wfile, Some err)
        | (wfile, None) =>
            let checksum := crc32.Write checksum b in
            match Write wfile b with
            | (wfile, Some err) => (wfile, Some err)
            | (wfile, None) =>
                match Write wfile (encodeU32 (crc32.Sum32 checksum)) with
                | (wfile, Some err) => (wfile, Some err)
                | (wfile, None) => (wfile, None)
                end
            end
        end
    end.

End Append.

(** Appending the payloads [bs] one after the other, stopping at the
    first error. *)
Fixpoint append_all (wfile : list byte) (bs : list (list byte))
  : list byte * option error :=
  match bs with
  | [] => (wfile, None)
  | b :: bs' =>
      match Append wfile b with
      | (wfile, Some err) => (wfile, Some err)
      | (wfile, None) => append_all wfile bs'
      end
  end.

(** Replaying a log: up to [n] calls of [Lookup], each from the offset
    the one before returned; the payloads and next offsets they return. *)
Fixpoint replay (n : nat) (rfile : list byte) (offset : Z) : list (list byte * Z) :=
  match n with
  | O => []
  | S n' =>
      match Lookup rfile offset with
      | Some (inr (b, next)) => (b, next) :: replay n' rfile next
      | _ => []
      end
  end.

(** ** Closing the handles *)

(** [io.Closer]. *)
Class Closer (H : Type) : Type :=
  close : H -> H * option error.

Record AOF (R W : Type) : Type := mkAOF { rfile : R; wfile : W }.
Arguments mkAOF {R W} _ _.
Arguments rfile {R W} _.
Arguments wfile {R W} _.

Section Close.

Context {R W : Type} `{Closer R} `{Closer W}.

Definition Close (aof : AOF R W) : AOF R W * option error :=
  let (r, err) := close (rfile aof) in
  match err with
  | Some e =>
      (* Return the first error but close the other file too. *)
      let (w, _) := close (wfile aof) in
      (mkAOF r w, Some e)
  | None =>
      let (w, err) := close (wfile aof) in
      (mkAOF r w, err)
  end.

End Close.

(** A file descriptor as [Close] sees it: how many times it was closed,
    and the error, if any, that closing it gives. *)
Record descriptor : Type := mkDescriptor { closes : nat; close_error : option error }.

#[export] Instance descriptor_Closer : Closer descriptor :=
  fun d => (mkDescriptor (S (closes d)) (close_error d), close_error d).

(** ** The wire format, from its description

    The bytes of a chunk, the places of a file where a cookie begins,
    and what the scanner makes of the bytes after a cookie. *)

Definition cookie : list byte := [Byte.x24; Byte.x71; Byte.x62; Byte.x96].

(** Big-endian bytes of a 16-bit and of a 32-bit number, by division. *)
Definition be16 (n : Z) : list byte :=
  [byte.of_Z (n / 2 ^ 8); byte.of_Z (n mod 2 ^ 8)].

Definition be32 (n : Z) : list byte :=
  [byte.of_Z (n / 2 ^ 24); byte.of_Z (n / 2 ^ 16 mod 2 ^ 8);
   byte.of_Z (n / 2 ^ 8 mod 2 ^ 8); byte.of_Z (n mod 2 ^ 8)].

(** The chunk of payload [b]: cookie, length, payload, and the CRC-32 of
    the three. *)
Definition chunk (b : list byte) : list byte :=
  let covered := cookie ++ be16 (Z.of_nat (length b)) ++ b in
  covered ++ be32 (crc32.ChecksumIEEE covered).

(** A file whose length a Go [int64] holds, as the length of every file
    is. *)
Definition stream_fits (file : list byte) : Prop :=
  Z.of_nat (length file) <= Int.max_int64.

Definition begins_cookie (u : list byte) : bool :=
  match u with
  | a :: b :: c :: d :: _ =>
      Byte.eqb a Byte.x24 && Byte.eqb b Byte.x71 &&
      Byte.eqb c Byte.x62 && Byte.eqb d Byte.x96
  | _ => false
  end.

Arguments begins_cookie : simpl never.

(** The cookie begins at byte [p] of [file]. *)
Definition cookie_at (file : list byte) (p : Z) : bool :=
  (0 <=? p) && begins_cookie (skipn (Z.to_nat p) file).

(** The first place of [u] where the cookie begins. *)
Fixpoint first_cookie (u : list byte) : option nat :=
  match u with
  | [] => None
  | _ :: u' =>
      if begins_cookie u then Some O
      else match first_cookie u' with
           | Some j => Some (S j)
           | None => None
           end
  end.

(** What the scanner makes of a cookie found at offset [p], from the
    bytes [r] that follow the cookie: the length, the bounds check, the
    payload, the stored checksum and its comparison with the CRC-32 of
    cookie, length and payload. *)
Definition validate (r : list byte) (p : Z) : step * list Z :=
  match r with
  | h :: l :: r1 =>
      let size := BigEndian.Uint16 [h; l] in
      if size >? 1024 then (Continue (p + 1), [])
      else if Z.of_nat (length r1) <? size + 4 then (Fail EOF, [size])
      else
        let b := firstn (Z.to_nat size) r1 in
        let stored := BigEndian.Uint32 (firstn 4 (skipn (Z.to_nat size) r1)) in
        if crc32.ChecksumIEEE (cookie ++ [h; l] ++ b) =? stored
        then (Return b (p + 10 + size), [size])
        else (Continue (p + 1), [size])
  | _ => (Fail EOF, [])
  end.

(** The pass of [Lookup] that begins at [p] rejects what it finds and
    goes on one byte further. *)
Definition rejected (file : list byte) (p : Z) : bool :=
  match fst (Lookup_pass file p) with
  | Continue offset => offset =? p + 1
  | _ => false
  end.

(** The pass of [Lookup] that begins at [p] returns a chunk. *)
Definition returns (file : list byte) (p : Z) : bool :=
  match fst (Lookup_pass file p) with
  | Return _ _ => true
  | _ => false
  end.

(** Every cookie that begins at one of the [n] places from [lo] on is
    rejected: by the bounds check, or by the checksum with all the bytes
    of the would-be chunk there. *)
Definition only_rejected (file : list byte) (lo n : nat) : bool :=
  forallb (fun q => negb (cookie_at file (Z.of_nat q)) || rejected file (Z.of_nat q))
          (seq lo n).

(** No cookie that begins at one of the [n] places from [lo] on is the
    start of a chunk that [Lookup] returns. *)
Definition none_valid (file : list byte) (lo n : nat) : bool :=
  forallb (fun q => negb (cookie_at file (Z.of_nat q)) || negb (returns file (Z.of_nat q)))
          (seq lo n).

(** Overwriting byte [i] of a file by [v]. *)
Definition overwrite (file : list byte) (i : nat) (v : byte) : list byte :=
  firstn i file ++ v :: skipn (S i) file.

(** What replaying the log of the payloads [bs] from [offset] is to give. *)
Fixpoint chained (offset : Z) (bs : list (list byte)) : list (list byte * Z) :=
  match bs with
  | [] => []
  | b :: bs' =>
      let next := offset + 10 + Z.of_nat (length b) in
      (b, next) :: chained next bs'
  end.


(** The values of a [uint32]. *)
Definition u32 (x : Z) : Prop := 0 <= x < 2 ^ 32.

(** The window [sync] read in the order of the file, when the oldest of
    its bytes is at index [k]. *)
Definition window (sync : list byte) (k : Z) : list byte :=
  [index sync (k mod 4); index sync ((k + 1) mod 4);
   index sync ((k + 2) mod 4); index sync ((k + 3) mod 4)].

(** ** Payloads of the package's tests *)

Definition abcd : list byte := [Byte.x61; Byte.x62; Byte.x63; Byte.x64].
Definition efgh : list byte := [Byte.x65; Byte.x66; Byte.x67; Byte.x68].

(** Three bytes of the cookie and a fourth that differs from its last. *)
Definition near_cookie : list byte := [Byte.x24; Byte.x71; Byte.x62; Byte.x69].

(** A payload that is itself a chunk, of the one byte 78. *)
Definition embedded : list byte := chunk [Byte.x78].

(** The logs of one and of two appends. *)
Definition log_of1 (b1 : list byte) : list byte := fst (Append [] b1).
Definition log_of2 (b1 b2 : list byte) : list byte := fst (Append (log_of1 b1) b2).

(** A chunk of payload [b1] cut after its first [k] bytes, then the
    append of [b2]. *)
Definition torn_then (b1 : list byte) (k : nat) (b2 : list byte) : list byte :=
  fst (Append (firstn k (log_of1 b1)) b2).

(** A writer that keeps apart what each call of [Write] handed to it. *)
Definition write_log : Type := list (list byte).

#[export] Instance log_Writer : Writer write_log :=
  fun log p => (log ++ [p], None).

(** ** A write handle that fails

    A file open for appending that counts the calls of [Write] made on
    it; the call number [fails_at] (counted from 0) fails with [EIO] and
    writes nothing, every other call, before or after, appends what it
    is handed. *)

Definition EIO : Z := 5.

Record flaky : Type :=
  mkFlaky { written : list byte; calls : nat; fails_at : nat }.

#[export] Instance flaky_Writer : Writer flaky :=
  fun w p =>
    if (calls w =? fails_at w)%nat
    then (mkFlaky (written w) (S (calls w)) (fails_at w), Some (ErrSys EIO))
    else (mkFlaky (written w ++ p) (S (calls w)) (fails_at w), None).

(** The bytes that the first [k] calls of [Write] of an [Append] of [b]
    hand over: nothing, the cookie, cookie and length, or these and the
    payload. *)
Definition fields_written (b : list byte) (k : nat) : nat :=
  match k with
  | O => 0%nat
  | 1%nat => 4%nat
  | 2%nat => 6%nat
  | _ => (6 + length b)%nat
  end.

(** ** The earlier Lookup

    The [Lookup] of the earlier version of the file (src/aof.go, lines
    114-186): one pass, without the outer loop.  Its inner loop adds 1 to
    [sp] before it stores the byte read; the checksum is fed the window as
    it lies in memory; the two checks have empty bodies. *)

Module Legacy.

Fixpoint seek_cookie (r : list byte) (sync : list byte) (sp : Z)
  : error + (list byte * Z * list byte) :=
  if isCookie sync sp then inr (sync, sp, r)
  else
    match r with
    | [] => inl EOF
    | c :: r' =>
        seek_cookie r' (store sync (Z.land (Int.add64 sp 1) 3) c) (Int.add64 sp 1)
    end.

Definition Lookup (rfile : list byte) (offset : Z) : error + (list byte * Z) :=
  match io.Seek rfile offset with
  | inl err => inl err
  | inr (ret, r) =>
      if negb (ret =? offset) then inl EOF else
      match io.ReadFull r 4 with
      | inl err => inl (eof_of_unexpected err)
      | inr (sync, r) =>
          match seek_cookie r sync 0 with
          | inl err => inl err
          | inr (sync, sp, r) =>
              let checksum := crc32.NewIEEE in
              let checksum := crc32.Write checksum sync in
              match readU16 r with
              | inl err => inl err
              | inr (size, r) =>
                  (* if size > maxChunkSize { } *)
                  let checksum := crc32.Write checksum (encodeU16 size) in
                  match io.ReadFull r (Z.to_nat size) with
                  | inl err => inl (eof_of_unexpected err)
                  | inr (b, r) =>
                      let checksum := crc32.Write checksum b in
                      match readU32 r with
                      | inl err => inl err
                      | inr (chunkChecksum, r) =>
                          (* if checksum.Sum32() != chunkChecksum { } *)
                          inr (b, Int.add64
                                    (Int.add64 (Int.add64 offset sp) 10)
                                    (Z.of_nat (length b)))
                      end
                  end
              end
          end
      end
  end.

End Legacy.

(** * Properties *)

(** ** Fixed-width integers *)

Lemma int64_id z : - 2 ^ 63 <= z <= Int.max_int64 -> Int.int64 z = z.
Proof.
  unfold Int.int64, Int.max_int64. intros Hz.
  rewrite Z.mod_small; lia.
Qed.

Lemma add64_id a b :
  - 2 ^ 63 <= a + b <= Int.max_int64 -> Int.add64 a b = a + b.
Proof. apply int64_id. Qed.

Lemma int64_mod4 z : Int.int64 z mod 4 = z mod 4.
Proof.
  unfold Int.int64.
  change (2 ^ 63) with (4 * 2 ^ 61). change (2 ^ 64) with (4 * 2 ^ 62).
  Z.div_mod_to_equations. lia.
Qed.

Lemma land3_mod4 z : Z.land z 3 = z mod 4.
Proof. change 3 with (Z.ones 2). rewrite Z.land_ones by lia. reflexivity. Qed.

Lemma land3_add64 sp j : Z.land (Int.add64 sp j) 3 = (Z.land sp 3 + j) mod 4.
Proof.
  unfold Int.add64. rewrite !land3_mod4, int64_mod4.
  rewrite Z.add_mod_idemp_l by lia. reflexivity.
Qed.

(** ** The codec *)

Lemma of_Z_inj_small a b :
  0 <= a < 256 -> 0 <= b < 256 -> byte.of_Z a = byte.of_Z b -> a = b.
Proof.
  intros Ha Hb E. apply (f_equal byte.unsigned) in E.
  rewrite !byte.unsigned_of_Z in E. unfold byte.wrap in E.
  rewrite !Z.mod_small in E by (change (2 ^ 8) with 256; lia). exact E.
Qed.

Lemma of_Z_mod z : byte.of_Z (z mod 2 ^ 8) = byte.of_Z z.
Proof.
  apply byte.unsigned_inj. rewrite !byte.unsigned_of_Z. unfold byte.wrap.
  apply Z.mod_mod. discriminate.
Qed.

Lemma encodeU16_be16 n : encodeU16 n = be16 n.
Proof.
  unfold encodeU16, BigEndian.PutUint16, be16.
  rewrite Z.shiftr_div_pow2 by lia. rewrite of_Z_mod. reflexivity.
Qed.

Lemma encodeU32_be32 n : encodeU32 n = be32 n.
Proof.
  unfold encodeU32, BigEndian.PutUint32, be32.
  rewrite !Z.shiftr_div_pow2 by lia. rewrite !of_Z_mod. reflexivity.
Qed.

Lemma encodeU32_magicCookie : encodeU32 magicCookie = cookie.
Proof. reflexivity. Qed.

Lemma Uint16_encodeU16 n : 0 <= n < 2 ^ 16 -> BigEndian.Uint16 (encodeU16 n) = n.
Proof.
  intros Hn. unfold encodeU16, BigEndian.PutUint16, BigEndian.Uint16.
  rewrite !byte.unsigned_of_Z. unfold byte.wrap.
  assert (Hhi : forall i, 16 <= i -> Z.testbit n i = false).
  { intros i Hi. apply Z.bits_above_log2; try lia.
    destruct (Z.eq_dec n 0) as [->|]; [simpl; lia|].
    apply Z.lt_le_trans with 16; [|lia]. apply Z.log2_lt_pow2; lia. }
  Z.bitblast. symmetry. apply Hhi. lia.
Qed.

Lemma Uint32_encodeU32 n : 0 <= n < 2 ^ 32 -> BigEndian.Uint32 (encodeU32 n) = n.
Proof.
  intros Hn. unfold encodeU32, BigEndian.PutUint32, BigEndian.Uint32.
  rewrite !byte.unsigned_of_Z. unfold byte.wrap.
  assert (Hhi : forall i, 32 <= i -> Z.testbit n i = false).
  { intros i Hi. apply Z.bits_above_log2; try lia.
    destruct (Z.eq_dec n 0) as [->|]; [simpl; lia|].
    apply Z.lt_le_trans with 32; [|lia]. apply Z.log2_lt_pow2; lia. }
  Z.bitblast. symmetry. apply Hhi. lia.
Qed.

Lemma byte_bits_high (b : byte) i : 8 <= i -> Z.testbit (byte.unsigned b) i = false.
Proof.
  intros Hi. pose proof (byte.unsigned_range b) as Hb.
  destruct (Z.eq_dec (byte.unsigned b) 0) as [E|NE].
  - rewrite E. apply Z.bits_0.
  - apply Z.bits_above_log2; [lia|].
    apply Z.lt_le_trans with 8; [|lia]. apply Z.log2_lt_pow2; lia.
Qed.

Ltac byte_bits :=
  subst;
  repeat match goal with
         | |- context [Z.testbit (byte.unsigned ?b) ?i] =>
             first [ rewrite (byte_bits_high b i) by lia
                   | rewrite (Z.testbit_neg_r (byte.unsigned b) i) by lia ]
         end;
  rewrite ?andb_true_l, ?andb_false_l, ?orb_false_l, ?orb_false_r,
    ?andb_true_r, ?andb_false_r;
  try reflexivity.

Lemma encodeU16_Uint16 h l : encodeU16 (BigEndian.Uint16 [h; l]) = [h; l].
Proof.
  unfold encodeU16, BigEndian.PutUint16, BigEndian.Uint16.
  f_equal; [|f_equal]; apply byte.unsigned_inj;
    rewrite byte.unsigned_of_Z; unfold byte.wrap; Z.bitblast; byte_bits.
Qed.

Lemma encodeU32_Uint32 a b c d :
  encodeU32 (BigEndian.Uint32 [a; b; c; d]) = [a; b; c; d].
Proof.
  unfold encodeU32, BigEndian.PutUint32, BigEndian.Uint32.
  repeat (f_equal; try (apply byte.unsigned_inj;
    rewrite byte.unsigned_of_Z; unfold byte.wrap; Z.bitblast; byte_bits)).
Qed.

Lemma Uint16_range h l : 0 <= BigEndian.Uint16 [h; l] < 2 ^ 16.
Proof.
  unfold BigEndian.Uint16.
  pose proof (byte.unsigned_range h). pose proof (byte.unsigned_range l).
  assert (E : Z.lor (byte.unsigned l) (Z.shiftl (byte.unsigned h) 8)
              = byte.unsigned l + byte.unsigned h * 2 ^ 8).
  { rewrite <- Z.shiftl_mul_pow2 by lia. rewrite <- Z.lxor_lor.
    - symmetry. apply Z.add_nocarry_lxor.
      Z.bitblast. destruct (Z.ltb_spec i 8); byte_bits.
    - Z.bitblast. destruct (Z.ltb_spec i 8); byte_bits. }
  rewrite E. lia.
Qed.

(** ** The checksum *)

Lemma u32_bits x : u32 x <-> 0 <= x /\ forall i, 32 <= i -> Z.testbit x i = false.
Proof.
  unfold u32. split.
  - intros Hx. split; [lia|]. intros i Hi.
    destruct (Z.eq_dec x 0) as [->|NE]; [apply Z.bits_0|].
    apply Z.bits_above_log2; [lia|].
    apply Z.lt_le_trans with 32; [|lia]. apply Z.log2_lt_pow2; lia.
  - intros [H0 Hb].
    assert (E : x = x mod 2 ^ 32).
    { apply Z.bits_inj'. intros i Hi. destruct (Z.ltb_spec i 32).
      - rewrite Z.mod_pow2_bits_low by lia. reflexivity.
      - rewrite Z.mod_pow2_bits_high by lia. apply Hb. lia. }
    rewrite E. apply Z.mod_pos_bound. lia.
Qed.

Lemma u32_lxor a b : u32 a -> u32 b -> u32 (Z.lxor a b).
Proof.
  rewrite !u32_bits. intros [Ha Ha'] [Hb Hb']. split.
  - apply Z.lxor_nonneg. tauto.
  - intros i Hi. rewrite Z.lxor_spec, Ha', Hb' by lia. reflexivity.
Qed.

Lemma u32_shiftr a n : 0 <= n -> u32 a -> u32 (Z.shiftr a n).
Proof.
  rewrite !u32_bits. intros Hn [Ha Ha']. split.
  - apply Z.shiftr_nonneg. lia.
  - intros i Hi. rewrite Z.shiftr_spec by lia. apply Ha'. lia.
Qed.

Lemma u32_shift_xor c : u32 c -> u32 (crc32.shift_xor c).
Proof.
  intros Hc. unfold crc32.shift_xor. destruct (Z.testbit c 0).
  - apply u32_lxor; [apply u32_shiftr; [lia|exact Hc]|]. unfold u32, crc32.IEEE. lia.
  - apply u32_shiftr; [lia|exact Hc].
Qed.

Lemma u32_tab i : u32 i -> u32 (crc32.tab i).
Proof. intros Hi. unfold crc32.tab. do 8 apply u32_shift_xor. exact Hi. Qed.

Lemma u32_byte (v : byte) : u32 (byte.unsigned v).
Proof. pose proof (byte.unsigned_range v). unfold u32. lia. Qed.

Lemma u32_update_byte crc v : u32 crc -> u32 (crc32.update_byte crc v).
Proof.
  intros Hc. unfold crc32.update_byte. apply u32_lxor.
  - apply u32_tab, u32_lxor; [|apply u32_byte].
    change 0xff with (Z.ones 8). rewrite Z.land_ones by lia.
    pose proof (Z.mod_pos_bound crc (2 ^ 8)). unfold u32. lia.
  - apply u32_shiftr; [lia|exact Hc].
Qed.

Lemma u32_not32 c : u32 c -> u32 (crc32.not32 c).
Proof. intros Hc. apply u32_lxor; [exact Hc|]. unfold u32. lia. Qed.

Lemma not32_involutive c : crc32.not32 (crc32.not32 c) = c.
Proof.
  unfold crc32.not32. rewrite Z.lxor_assoc, Z.lxor_nilpotent. apply Z.lxor_0_r.
Qed.

Lemma u32_fold p : forall c, u32 c -> u32 (fold_left crc32.update_byte p c).
Proof.
  induction p as [|v p IH]; intros c Hc; simpl; [exact Hc|].
  apply IH, u32_update_byte, Hc.
Qed.

Lemma u32_Update crc p : u32 crc -> u32 (crc32.Update crc p).
Proof. intros Hc. apply u32_not32, u32_fold, u32_not32, Hc. Qed.

Lemma u32_ChecksumIEEE p : u32 (crc32.ChecksumIEEE p).
Proof. apply u32_Update. unfold u32. lia. Qed.

Lemma Update_app crc p q :
  crc32.Update (crc32.Update crc p) q = crc32.Update crc (p ++ q).
Proof.
  unfold crc32.Update. rewrite not32_involutive, fold_left_app. reflexivity.
Qed.

(** The three [Write]s of [Append] and of [Lookup] give the checksum of
    the concatenation. *)
Lemma Write_thrice p q r :
  crc32.Sum32 (crc32.Write (crc32.Write (crc32.Write crc32.NewIEEE p) q) r)
  = crc32.ChecksumIEEE (p ++ q ++ r).
Proof.
  unfold crc32.Sum32, crc32.Write, crc32.ChecksumIEEE, crc32.NewIEEE.
  rewrite !Update_app. reflexivity.
Qed.

(** The check value of the CRC-32 of the IEEE polynomial: the checksum of
    the digits 1 to 9. *)
Lemma ChecksumIEEE_check :
  crc32.ChecksumIEEE (map byte.of_Z [0x31; 0x32; 0x33; 0x34; 0x35; 0x36; 0x37; 0x38; 0x39])
  = 0xcbf43926.
Proof. vm_compute. reflexivity. Qed.

(** ** The read handle *)

Lemma ReadFull_ok r n :
  (n <= length r)%nat -> io.ReadFull r n = inr (firstn n r, skipn n r).
Proof.
  intros Hn. unfold io.ReadFull. destruct n as [|n]; [reflexivity|].
  destruct r as [|a r]; [simpl in Hn; lia|].
  destruct (Nat.ltb_spec (length (a :: r)) (S n)); [lia|reflexivity].
Qed.

Lemma ReadFull_short r n :
  (length r < n)%nat ->
  exists err, io.ReadFull r n = inl err /\ eof_of_unexpected err = EOF.
Proof.
  intros Hn. unfold io.ReadFull. destruct n as [|n]; [lia|].
  destruct r as [|a r]; [exists EOF; split; reflexivity|].
  destruct (Nat.ltb_spec (length (a :: r)) (S n)); [|lia].
  exists ErrUnexpectedEOF. split; reflexivity.
Qed.

Lemma ReadFull_app l rest : io.ReadFull (l ++ rest) (length l) = inr (l, rest).
Proof.
  rewrite ReadFull_ok by (rewrite length_app; lia).
  rewrite firstn_app, Nat.sub_diag, firstn_all, skipn_app, Nat.sub_diag, skipn_all.
  simpl. rewrite app_nil_r. reflexivity.
Qed.

(** The byte read of the inner loop of [Lookup] is [readU8]. *)
Lemma readU8_unfold r :
  readU8 r = match r with [] => inl EOF | c :: r' => inr (c, r') end.
Proof. destruct r as [|c r]; reflexivity. Qed.

Lemma readU16_app n rest :
  0 <= n < 2 ^ 16 -> readU16 (encodeU16 n ++ rest) = inr (n, rest).
Proof.
  intros Hn. unfold readU16.
  change 2%nat with (length (encodeU16 n)). rewrite ReadFull_app.
  rewrite Uint16_encodeU16 by exact Hn. reflexivity.
Qed.

Lemma readU32_app n rest :
  0 <= n < 2 ^ 32 -> readU32 (encodeU32 n ++ rest) = inr (n, rest).
Proof.
  intros Hn. unfold readU32.
  change 4%nat with (length (encodeU32 n)). rewrite ReadFull_app.
  rewrite Uint32_encodeU32 by exact Hn. reflexivity.
Qed.

(** ** The search of the cookie *)

Lemma byte_eqb_unsigned (a b : byte) :
  (byte.unsigned a =? byte.unsigned b) = Byte.eqb a b.
Proof.
  destruct (Byte.eqb a b) eqn:E.
  - apply Byte.byte_dec_bl in E. subst. apply Z.eqb_refl.
  - apply Z.eqb_neq. intros U. apply byte.unsigned_inj in U. subst.
    rewrite (Byte.byte_dec_lb eq_refl) in E. discriminate.
Qed.

Lemma land3_cases sp :
  Z.land sp 3 = 0 \/ Z.land sp 3 = 1 \/ Z.land sp 3 = 2 \/ Z.land sp 3 = 3.
Proof. rewrite land3_mod4. pose proof (Z.mod_pos_bound sp 4). lia. Qed.

(** [isCookie] compares the window, read from its oldest byte on, with
    the cookie. *)
Lemma isCookie_window s0 s1 s2 s3 sp :
  isCookie [s0; s1; s2; s3] sp
  = begins_cookie (window [s0; s1; s2; s3] (Z.land sp 3)).
Proof.
  unfold isCookie. rewrite !land3_add64.
  change 0x24 with (byte.unsigned Byte.x24). change 0x71 with (byte.unsigned Byte.x71).
  change 0x62 with (byte.unsigned Byte.x62). change 0x96 with (byte.unsigned Byte.x96).
  rewrite !byte_eqb_unsigned.
  destruct (land3_cases sp) as [E|[E|[E|E]]]; rewrite E; reflexivity.
Qed.

(** Storing the byte read over the oldest one slides the window by one
    byte. *)
Lemma window_store s0 s1 s2 s3 sp c :
  exists t0 t1 t2 t3,
    store [s0; s1; s2; s3] (Z.land sp 3) c = [t0; t1; t2; t3] /\
    window [t0; t1; t2; t3] (Z.land (Int.add64 sp 1) 3)
    = tl (window [s0; s1; s2; s3] (Z.land sp 3)) ++ [c].
Proof.
  rewrite land3_add64.
  destruct (land3_cases sp) as [E|[E|[E|E]]]; rewrite E;
    do 4 eexists; (split; [reflexivity|reflexivity]).
Qed.

Lemma first_cookie_short u : (length u < 4)%nat -> first_cookie u = None.
Proof.
  destruct u as [|a [|b [|c [|d u]]]]; simpl; intros; try reflexivity; lia.
Qed.

Lemma first_cookie_bound u j :
  first_cookie u = Some j -> (j + 4 <= length u)%nat.
Proof.
  revert j. induction u as [|a u IH]; intros j; simpl; [discriminate|].
  destruct (begins_cookie (a :: u)) eqn:B.
  - intros [= <-]. destruct u as [|b [|c [|d u]]]; try discriminate. simpl. lia.
  - destruct (first_cookie u) as [i|]; [|discriminate].
    intros [= <-]. specialize (IH i eq_refl). lia.
Qed.

(** The inner loop stops where the cookie first begins in the bytes of
    the window followed by those still to read. *)
Lemma seek_cookie_first r : forall s0 s1 s2 s3 sp offset,
  - 2 ^ 63 <= offset ->
  offset + Z.of_nat (length r) <= Int.max_int64 ->
  seek_cookie r [s0; s1; s2; s3] sp offset
  = match first_cookie (window [s0; s1; s2; s3] (Z.land sp 3) ++ r) with
    | None => inl EOF
    | Some j =>
        inr (offset + Z.of_nat j,
             skipn (j + 4) (window [s0; s1; s2; s3] (Z.land sp 3) ++ r))
    end.
Proof.
  induction r as [|c r IH]; intros s0 s1 s2 s3 sp offset Hlo Hhi.
  - simpl seek_cookie. rewrite isCookie_window, app_nil_r.
    remember (window [s0; s1; s2; s3] (Z.land sp 3)) as w eqn:Ew.
    unfold window in Ew. subst w.
    match goal with |- context [begins_cookie ?w] => destruct (begins_cookie w) eqn:B end.
    + simpl first_cookie. rewrite B. rewrite Z.add_0_r. reflexivity.
    + simpl first_cookie. rewrite B. reflexivity.
  - simpl seek_cookie. rewrite isCookie_window.
    destruct (window_store s0 s1 s2 s3 sp c) as (t0 & t1 & t2 & t3 & Es & Ew).
    rewrite Es. simpl length in Hhi.
    rewrite IH by (rewrite ?add64_id; unfold Int.max_int64 in *; lia).
    rewrite Ew. rewrite add64_id by (unfold Int.max_int64 in *; lia).
    remember (window [s0; s1; s2; s3] (Z.land sp 3)) as w eqn:Ew'.
    unfold window in Ew'. subst w.
    match goal with |- context [begins_cookie (?a :: ?b :: ?c' :: ?d :: nil)] =>
      set (x0 := a); set (x1 := b); set (x2 := c'); set (x3 := d) end.
    simpl tl. simpl app.
    change (begins_cookie [x0; x1; x2; x3]) with (begins_cookie (x0 :: x1 :: x2 :: x3 :: c :: r)).
    destruct (begins_cookie (x0 :: x1 :: x2 :: x3 :: c :: r)) eqn:B.
    + change (first_cookie (x0 :: x1 :: x2 :: x3 :: c :: r)) with
        (if begins_cookie (x0 :: x1 :: x2 :: x3 :: c :: r) then Some O
         else match first_cookie (x1 :: x2 :: x3 :: c :: r) with
              | Some j => Some (S j) | None => None end).
      rewrite B. rewrite Z.add_0_r. reflexivity.
    + change (first_cookie (x0 :: x1 :: x2 :: x3 :: c :: r)) with
        (if begins_cookie (x0 :: x1 :: x2 :: x3 :: c :: r) then Some O
         else match first_cookie (x1 :: x2 :: x3 :: c :: r) with
              | Some j => Some (S j) | None => None end).
      rewrite B.
      destruct (first_cookie (x1 :: x2 :: x3 :: c :: r)) as [j|]; [|reflexivity].
      f_equal. f_equal. lia.
Qed.

(** ** One pass of the scanner *)

(** From the cookie on, a pass does what [validate] says. *)
Lemma Lookup_chunk_validate r p :
  - 2 ^ 63 <= p ->
  p + 4 + Z.of_nat (length r) <= Int.max_int64 ->
  Lookup_chunk r p = validate r p.
Proof.
  intros Hlo Hhi. unfold Lookup_chunk, validate, readU16.
  destruct r as [|h [|l r1]]; [reflexivity|reflexivity|].
  rewrite ReadFull_ok by (simpl; lia).
  change (firstn 2 (h :: l :: r1)) with [h; l].
  change (skipn 2 (h :: l :: r1)) with r1. unfold maxChunkSize.
  pose proof (Uint16_range h l) as Hsize.
  set (size := BigEndian.Uint16 [h; l]) in *.
  cbn [length] in Hhi.
  destruct (Z.gtb_spec size 1024) as [Hbig|Hsmall].
  { rewrite add64_id by (unfold Int.max_int64 in *; lia). reflexivity. }
  destruct (Z.ltb_spec (Z.of_nat (length r1)) (size + 4)) as [Hshort|Hlong].
  - destruct (Nat.lt_ge_cases (length r1) (Z.to_nat size)) as [Hlt|Hge].
    + destruct (ReadFull_short r1 (Z.to_nat size) Hlt) as (err & -> & ->).
      reflexivity.
    + rewrite ReadFull_ok by exact Hge. unfold readU32.
      destruct (ReadFull_short (skipn (Z.to_nat size) r1) 4) as (err & -> & ->);
        [rewrite length_skipn; lia|reflexivity].
  - rewrite ReadFull_ok by lia. unfold readU32.
    rewrite ReadFull_ok by (rewrite length_skipn; lia).
    rewrite Write_thrice. unfold size at 1. rewrite encodeU16_Uint16.
    rewrite encodeU32_magicCookie.
    rewrite length_firstn, Nat.min_l by lia.
    unfold chunkMetadataSize.
    rewrite !add64_id by (rewrite ?add64_id; unfold Int.max_int64 in *; lia).
    rewrite Z2Nat.id by lia.
    match goal with |- context [negb (?a =? ?b)] => destruct (a =? b) end;
      reflexivity.
Qed.

(** A pass from a negative offset fails on the seek. *)
Lemma Lookup_pass_negative file offset :
  offset < 0 -> Lookup_pass file offset = (Fail (ErrSys io.EINVAL), []).
Proof.
  intros Hneg. unfold Lookup_pass, io.Seek.
  destruct (Z.ltb_spec offset 0); [reflexivity|lia].
Qed.

(** A pass from [offset] goes to the first cookie at or after [offset]
    and validates what follows it; without a cookie it ends at the end of
    the file. *)
Lemma Lookup_pass_view file offset :
  stream_fits file -> 0 <= offset ->
  Lookup_pass file offset
  = match first_cookie (skipn (Z.to_nat offset) file) with
    | None => (Fail EOF, [])
    | Some j =>
        validate (skipn (Z.to_nat offset + j + 4) file) (offset + Z.of_nat j)
    end.
Proof.
  unfold stream_fits. intros Hfit Hoff. unfold Lookup_pass, io.Seek.
  destruct (Z.ltb_spec offset 0); [lia|]. rewrite Z.eqb_refl. cbn [negb].
  pose proof (length_skipn (Z.to_nat offset) file) as Hlen.
  pose proof (skipn_skipn) as Hss.
  remember (skipn (Z.to_nat offset) file) as u eqn:Eu.
  destruct (Nat.lt_ge_cases (length u) 4) as [Hshort|Hlong].
  - destruct (ReadFull_short u 4 Hshort) as (err & -> & ->).
    rewrite first_cookie_short by exact Hshort. reflexivity.
  - rewrite ReadFull_ok by exact Hlong.
    destruct u as [|a [|b [|c [|d r]]]]; simpl in Hlong; try lia.
    cbn [firstn skipn]. cbn [length] in Hlen.
    rewrite seek_cookie_first by (unfold Int.max_int64 in *; lia).
    change (window [a; b; c; d] (Z.land 0 3) ++ r) with (a :: b :: c :: d :: r).
    destruct (first_cookie (a :: b :: c :: d :: r)) as [j|] eqn:Ej; [|reflexivity].
    apply first_cookie_bound in Ej. cbn [length] in Ej.
    rewrite Lookup_chunk_validate.
    + rewrite Eu, skipn_skipn. f_equal. f_equal. lia.
    + lia.
    + rewrite length_skipn. cbn [length]. unfold Int.max_int64 in *. lia.
Qed.

Lemma first_cookie_begins u : forall j,
  first_cookie u = Some j -> begins_cookie (skipn j u) = true.
Proof.
  induction u as [|a u IH]; intros j; cbn [first_cookie]; [discriminate|].
  destruct (begins_cookie (a :: u)) eqn:B.
  - intros [= <-]. exact B.
  - destruct (first_cookie u) as [i|]; [|discriminate].
    intros [= <-]. apply IH. reflexivity.
Qed.

Lemma first_cookie_least u : forall j i,
  first_cookie u = Some j -> (i < j)%nat -> begins_cookie (skipn i u) = false.
Proof.
  induction u as [|a u IH]; intros j i; cbn [first_cookie]; [discriminate|].
  destruct (begins_cookie (a :: u)) eqn:B.
  - intros [= <-]. lia.
  - destruct (first_cookie u) as [k|]; [|discriminate].
    intros [= <-] Hi. destruct i as [|i]; [exact B|].
    apply (IH k); [reflexivity|lia].
Qed.

Lemma first_cookie_exists u : forall i,
  begins_cookie (skipn i u) = true ->
  exists j, first_cookie u = Some j /\ (j <= i)%nat.
Proof.
  induction u as [|a u IH]; intros i.
  - rewrite skipn_nil. discriminate.
  - cbn [first_cookie]. destruct (begins_cookie (a :: u)) eqn:B.
    + intros _. exists O. split; [reflexivity|lia].
    + destruct i as [|i]; [simpl; congruence|].
      intros Hi. destruct (IH i Hi) as (j & -> & Hj).
      exists (S j). split; [reflexivity|lia].
Qed.

Lemma cookie_at_nat file (q : nat) :
  cookie_at file (Z.of_nat q) = begins_cookie (skipn q file).
Proof.
  unfold cookie_at. rewrite Nat2Z.id.
  destruct (Z.leb_spec 0 (Z.of_nat q)); [reflexivity|lia].
Qed.

(** A pass that begins on a cookie validates what follows it. *)
Lemma Lookup_pass_at_cookie file (p : nat) :
  stream_fits file -> cookie_at file (Z.of_nat p) = true ->
  Lookup_pass file (Z.of_nat p) = validate (skipn (p + 4) file) (Z.of_nat p).
Proof.
  intros Hfit Hc. rewrite cookie_at_nat in Hc.
  rewrite Lookup_pass_view by (try exact Hfit; lia).
  rewrite Nat2Z.id.
  destruct (first_cookie_exists _ O Hc) as (j & Ej & Hj).
  rewrite Ej. assert (j = O) by lia. subst j.
  rewrite Nat.add_0_r, Z.add_0_r. reflexivity.
Qed.

(** A pass does what the pass from the first cookie at or after its
    offset does. *)
Lemma Lookup_pass_skip file (offset j : nat) :
  stream_fits file ->
  first_cookie (skipn offset file) = Some j ->
  Lookup_pass file (Z.of_nat offset) = Lookup_pass file (Z.of_nat (offset + j)).
Proof.
  intros Hfit Ej.
  rewrite (Lookup_pass_at_cookie file (offset + j) Hfit).
  - rewrite Lookup_pass_view by (try exact Hfit; lia).
    rewrite Nat2Z.id, Ej. f_equal. lia.
  - rewrite cookie_at_nat, (Nat.add_comm offset j), <- skipn_skipn.
    apply first_cookie_begins. exact Ej.
Qed.

Lemma validate_Continue r p offset :
  fst (validate r p) = Continue offset -> offset = p + 1.
Proof.
  unfold validate. destruct r as [|h [|l r1]]; try discriminate.
  repeat match goal with |- context [if ?c then _ else _] => destruct c end;
    cbn [fst]; congruence.
Qed.

Lemma validate_Fail r p err : fst (validate r p) = Fail err -> err = EOF.
Proof.
  unfold validate. destruct r as [|h [|l r1]]; cbn [fst]; try congruence.
  repeat match goal with |- context [if ?c then _ else _] => destruct c end;
    cbn [fst]; congruence.
Qed.

Lemma validate_Return r p b next :
  fst (validate r p) = Return b next ->
  next = p + 10 + Z.of_nat (length b) /\
  Z.of_nat (length b) <= 1024 /\
  Z.of_nat (length b) + 6 <= Z.of_nat (length r).
Proof.
  unfold validate. destruct r as [|h [|l r1]]; try discriminate.
  pose proof (Uint16_range h l) as Hsize.
  set (size := BigEndian.Uint16 [h; l]) in *.
  destruct (Z.gtb_spec size 1024); [discriminate|].
  destruct (Z.ltb_spec (Z.of_nat (length r1)) (size + 4)); [discriminate|].
  match goal with |- context [if ?c then _ else _] => destruct c end;
    [|discriminate].
  cbn [fst]. intros [= <- <-].
  rewrite length_firstn, Nat.min_l by lia. cbn [length]. lia.
Qed.

(** Where a pass from a non-negative offset ends: at the end of the file
    when no cookie follows, else on the first cookie that follows, with
    what [validate] makes of it. *)
Lemma Lookup_pass_cookie file offset :
  stream_fits file -> 0 <= offset ->
  ((forall q : nat, offset <= Z.of_nat q -> cookie_at file (Z.of_nat q) = false) /\
   Lookup_pass file offset = (Fail EOF, [])) \/
  exists p : nat,
    offset <= Z.of_nat p /\
    cookie_at file (Z.of_nat p) = true /\
    (p + 4 <= length file)%nat /\
    (forall q : nat, offset <= Z.of_nat q -> (q < p)%nat ->
                     cookie_at file (Z.of_nat q) = false) /\
    Lookup_pass file offset = Lookup_pass file (Z.of_nat p) /\
    Lookup_pass file (Z.of_nat p) = validate (skipn (p + 4) file) (Z.of_nat p).
Proof.
  intros Hfit Hoff.
  rewrite <- (Z2Nat.id offset Hoff). set (n := Z.to_nat offset).
  destruct (first_cookie (skipn n file)) as [j|] eqn:Ej.
  - right. exists (n + j)%nat.
    pose proof (first_cookie_begins _ _ Ej) as Hb.
    pose proof (first_cookie_bound _ _ Ej) as Hl.
    rewrite length_skipn in Hl. rewrite skipn_skipn, Nat.add_comm in Hb.
    assert (Hc : cookie_at file (Z.of_nat (n + j)) = true)
      by (rewrite cookie_at_nat; exact Hb).
    repeat split.
    + lia.
    + exact Hc.
    + lia.
    + intros q Hq Hqp. rewrite cookie_at_nat.
      replace q with ((q - n) + n)%nat by lia. rewrite <- skipn_skipn.
      apply (first_cookie_least _ j); [exact Ej|lia].
    + apply Lookup_pass_skip; assumption.
    + apply Lookup_pass_at_cookie; assumption.
  - left. split.
    + intros q Hq. rewrite cookie_at_nat.
      destruct (begins_cookie (skipn q file)) eqn:B; [|reflexivity].
      replace q with ((q - n) + n)%nat in B by lia. rewrite <- skipn_skipn in B.
      destruct (first_cookie_exists _ _ B) as (j & Ej' & _). congruence.
    + rewrite Lookup_pass_view by (try exact Hfit; lia).
      rewrite Nat2Z.id. fold n. rewrite Ej. reflexivity.
Qed.

Lemma Lookup_pass_Continue file offset offset' :
  stream_fits file ->
  fst (Lookup_pass file offset) = Continue offset' ->
  exists p : nat,
    offset <= Z.of_nat p /\ cookie_at file (Z.of_nat p) = true /\
    (p + 4 <= length file)%nat /\ offset' = Z.of_nat p + 1.
Proof.
  intros Hfit Hc. destruct (Z.lt_ge_cases offset 0) as [Hneg|Hpos].
  { rewrite Lookup_pass_negative in Hc by exact Hneg. discriminate. }
  destruct (Lookup_pass_cookie file offset Hfit Hpos)
    as [[_ E]|(p & Hp & Hcp & Hlen & _ & E & Ev)].
  - rewrite E in Hc. discriminate.
  - exists p. rewrite E, Ev in Hc. apply validate_Continue in Hc. auto.
Qed.

Lemma Lookup_pass_Fail file offset err :
  stream_fits file ->
  fst (Lookup_pass file offset) = Fail err ->
  (offset < 0 /\ err = ErrSys io.EINVAL) \/ (0 <= offset /\ err = EOF).
Proof.
  intros Hfit Hc. destruct (Z.lt_ge_cases offset 0) as [Hneg|Hpos].
  { rewrite Lookup_pass_negative in Hc by exact Hneg.
    left. split; [exact Hneg|]. cbn [fst] in Hc. congruence. }
  right. split; [exact Hpos|].
  destruct (Lookup_pass_cookie file offset Hfit Hpos)
    as [[_ E]|(p & Hp & Hcp & Hlen & _ & E & Ev)].
  - rewrite E in Hc. cbn [fst] in Hc. congruence.
  - rewrite E, Ev in Hc. apply validate_Fail in Hc. exact Hc.
Qed.

Lemma Lookup_pass_Return file offset b next :
  stream_fits file ->
  fst (Lookup_pass file offset) = Return b next ->
  exists p : nat,
    offset <= Z.of_nat p /\ cookie_at file (Z.of_nat p) = true /\
    fst (Lookup_pass file (Z.of_nat p)) = Return b next /\
    next = Z.of_nat p + 10 + Z.of_nat (length b) /\
    Z.of_nat (length b) <= 1024 /\
    next <= Z.of_nat (length file).
Proof.
  intros Hfit Hc. destruct (Z.lt_ge_cases offset 0) as [Hneg|Hpos].
  { rewrite Lookup_pass_negative in Hc by exact Hneg. discriminate. }
  destruct (Lookup_pass_cookie file offset Hfit Hpos)
    as [[_ E]|(p & Hp & Hcp & Hlen & _ & E & Ev)].
  - rewrite E in Hc. discriminate.
  - exists p. rewrite E in Hc. pose proof Hc as Hc'. rewrite Ev in Hc'.
    apply validate_Return in Hc'. destruct Hc' as (Hn & Hb & Hr).
    rewrite length_skipn in Hr. repeat split; try assumption. lia.
Qed.

(** ** The loop *)

Lemma Lookup_loop_S fuel file offset :
  Lookup_loop (S fuel) file offset
  = match fst (Lookup_pass file offset) with
    | Return b next => Some (inr (b, next))
    | Fail err => Some (inl err)
    | Continue offset' => Lookup_loop fuel file offset'
    end.
Proof. reflexivity. Qed.

(** With as many passes as there are bytes from the offset to the end of
    the file, and one more, the loop ends. *)
Lemma Lookup_loop_total file :
  stream_fits file ->
  forall fuel offset,
    (0 < fuel)%nat ->
    offset < 0 \/ Z.of_nat (length file) - offset < Z.of_nat fuel ->
    exists res, Lookup_loop fuel file offset = Some res.
Proof.
  intros Hfit. induction fuel as [|fuel IH]; intros offset Hpos Hfuel; [lia|].
  rewrite Lookup_loop_S.
  destruct (fst (Lookup_pass file offset)) as [b next|err|offset'] eqn:E.
  - eexists. reflexivity.
  - eexists. reflexivity.
  - destruct (Lookup_pass_Continue _ _ _ Hfit E) as (p & Hp & _ & Hlen & ->).
    destruct Hfuel as [Hneg|Hfuel].
    { rewrite Lookup_pass_negative in E by exact Hneg. discriminate. }
    apply IH; lia.
Qed.

(** More passes than enough change nothing. *)
Lemma Lookup_loop_more file res : forall fuel fuel' offset,
  Lookup_loop fuel file offset = Some res ->
  (fuel <= fuel')%nat ->
  Lookup_loop fuel' file offset = Some res.
Proof.
  induction fuel as [|fuel IH]; intros fuel' offset Hres Hle; [discriminate|].
  destruct fuel' as [|fuel']; [lia|].
  rewrite Lookup_loop_S in *.
  destruct (fst (Lookup_pass file offset)); try exact Hres.
  apply IH; [exact Hres|lia].
Qed.

Lemma Lookup_Return file offset b next :
  fst (Lookup_pass file offset) = Return b next ->
  Lookup file offset = Some (inr (b, next)).
Proof. intros E. unfold Lookup. rewrite Lookup_loop_S, E. reflexivity. Qed.

Lemma Lookup_Fail file offset err :
  fst (Lookup_pass file offset) = Fail err ->
  Lookup file offset = Some (inl err).
Proof. intros E. unfold Lookup. rewrite Lookup_loop_S, E. reflexivity. Qed.

(** After a pass that goes on, [Lookup] is [Lookup] from the new offset. *)
Lemma Lookup_Continue file offset offset' :
  stream_fits file ->
  fst (Lookup_pass file offset) = Continue offset' ->
  Lookup file offset = Lookup file offset'.
Proof.
  intros Hfit E. unfold Lookup at 1. rewrite Lookup_loop_S, E.
  destruct (Lookup_pass_Continue _ _ _ Hfit E) as (p & Hp & _ & Hlen & ->).
  destruct (Lookup_loop_total file Hfit (length file) (Z.of_nat p + 1))
    as [res Hres]; [lia|lia|].
  rewrite Hres. symmetry. unfold Lookup.
  apply (Lookup_loop_more _ _ (length file)); [exact Hres|lia].
Qed.

Lemma Lookup_same_pass file offset offset' :
  fst (Lookup_pass file offset) = fst (Lookup_pass file offset') ->
  Lookup file offset = Lookup file offset'.
Proof. intros E. unfold Lookup. rewrite !Lookup_loop_S, E. reflexivity. Qed.

(** The pass where the loop ends, and what it ends with. *)
Lemma Lookup_loop_last file :
  stream_fits file ->
  forall fuel offset res,
    Lookup_loop fuel file offset = Some res ->
    exists o,
      offset <= o /\
      match res with
      | inr (b, next) => fst (Lookup_pass file o) = Return b next
      | inl err => fst (Lookup_pass file o) = Fail err
      end.
Proof.
  intros Hfit. induction fuel as [|fuel IH]; intros offset res Hres; [discriminate|].
  rewrite Lookup_loop_S in Hres.
  destruct (fst (Lookup_pass file offset)) as [b next|err|offset'] eqn:E.
  - injection Hres as <-. exists offset. split; [lia|exact E].
  - injection Hres as <-. exists offset. split; [lia|exact E].
  - destruct (Lookup_pass_Continue _ _ _ Hfit E) as (p & Hp & _ & _ & ->).
    destruct (IH _ _ Hres) as (o & Ho & Hlast).
    exists o. split; [lia|exact Hlast].
Qed.

Lemma no_cookie_pass file offset :
  stream_fits file -> 0 <= offset ->
  (forall q : nat, offset <= Z.of_nat q -> cookie_at file (Z.of_nat q) = false) ->
  Lookup_pass file offset = (Fail EOF, []).
Proof.
  intros Hfit Hoff Hno.
  destruct (Lookup_pass_cookie file offset Hfit Hoff)
    as [[_ E]|(p & Hp & Hcp & _)]; [exact E|].
  rewrite Hno in Hcp by exact Hp. discriminate.
Qed.

Lemma only_rejected_spec file lo n :
  only_rejected file lo n = true <->
  forall q : nat, (lo <= q < lo + n)%nat ->
                  cookie_at file (Z.of_nat q) = true ->
                  fst (Lookup_pass file (Z.of_nat q)) = Continue (Z.of_nat q + 1).
Proof.
  unfold only_rejected. rewrite forallb_forall. split.
  - intros Hall q Hq Hc. specialize (Hall q). rewrite in_seq in Hall.
    specialize (Hall Hq). rewrite Hc in Hall. cbn [negb orb] in Hall.
    unfold rejected in Hall.
    destruct (fst (Lookup_pass file (Z.of_nat q))); try discriminate.
    apply Z.eqb_eq in Hall. congruence.
  - intros Hall q Hq. rewrite in_seq in Hq.
    destruct (cookie_at file (Z.of_nat q)) eqn:Hc; [|reflexivity].
    cbn [negb orb]. unfold rejected. rewrite (Hall q Hq Hc). apply Z.eqb_refl.
Qed.

Lemma none_valid_spec file lo n :
  none_valid file lo n = true <->
  forall q : nat, (lo <= q < lo + n)%nat ->
                  cookie_at file (Z.of_nat q) = true ->
                  forall b next, fst (Lookup_pass file (Z.of_nat q)) <> Return b next.
Proof.
  unfold none_valid. rewrite forallb_forall. split.
  - intros Hall q Hq Hc b next E. specialize (Hall q). rewrite in_seq in Hall.
    specialize (Hall Hq). rewrite Hc in Hall. cbn [negb orb] in Hall.
    unfold returns in Hall. rewrite E in Hall. discriminate.
  - intros Hall q Hq. rewrite in_seq in Hq.
    destruct (cookie_at file (Z.of_nat q)) eqn:Hc; [|reflexivity].
    cbn [negb orb]. unfold returns.
    destruct (fst (Lookup_pass file (Z.of_nat q))) as [b next| |] eqn:E;
      try reflexivity.
    exfalso. exact (Hall q Hq Hc b next E).
Qed.

(** ** Resynchronization *)

(** When every cookie between [lo] and a later place [lo + d] is
    rejected, and a cookie begins at [lo + d], [Lookup] from [lo] is
    [Lookup] from [lo + d]. *)
Lemma Lookup_resync file :
  stream_fits file ->
  forall d lo : nat,
    only_rejected file lo d = true ->
    cookie_at file (Z.of_nat (lo + d)) = true ->
    Lookup file (Z.of_nat lo) = Lookup file (Z.of_nat (lo + d)).
Proof.
  intros Hfit d. induction d as [d IH] using lt_wf_ind.
  intros lo Hrej Hc. rewrite only_rejected_spec in Hrej.
  destruct (Lookup_pass_cookie file (Z.of_nat lo) Hfit)
    as [[Hno _]|(p & Hp & Hcp & Hlen & Hleast & E & _)]; [lia| |].
  { rewrite Hno in Hc by lia. discriminate. }
  destruct (Nat.lt_ge_cases p (lo + d)) as [Hlt|Hge].
  - pose proof (Hrej p ltac:(lia) Hcp) as Hr.
    rewrite (Lookup_Continue file (Z.of_nat lo) (Z.of_nat p + 1) Hfit)
      by (rewrite E; exact Hr).
    replace (Z.of_nat p + 1) with (Z.of_nat (S p)) by lia.
    replace (lo + d)%nat with (S p + (lo + d - S p))%nat by lia.
    apply IH; [lia| |].
    + rewrite only_rejected_spec. intros q Hq. apply Hrej. lia.
    + replace (S p + (lo + d - S p))%nat with (lo + d)%nat by lia. exact Hc.
  - assert (p = (lo + d)%nat).
    { destruct (Nat.eq_dec p (lo + d)) as [|NE]; [assumption|].
      rewrite Hleast in Hc by lia. discriminate. }
    subst p. apply Lookup_same_pass. rewrite E. reflexivity.
Qed.

(** When no cookie from [lo] on begins a chunk that a pass returns,
    [Lookup] from [lo] finds the end of the file. *)
Lemma Lookup_none_valid file :
  stream_fits file ->
  forall n lo : nat,
    (length file <= lo + n)%nat ->
    none_valid file lo n = true ->
    Lookup file (Z.of_nat lo) = Some (inl EOF).
Proof.
  intros Hfit n. induction n as [n IH] using lt_wf_ind.
  intros lo Hn Hnone. rewrite none_valid_spec in Hnone.
  destruct (Lookup_pass_cookie file (Z.of_nat lo) Hfit)
    as [[_ E]|(p & Hp & Hcp & Hlen & _ & E & Ev)]; [lia| |].
  { apply Lookup_Fail. rewrite E. reflexivity. }
  destruct (fst (Lookup_pass file (Z.of_nat p))) as [b next|err|offset'] eqn:Ep.
  - exfalso. exact (Hnone p ltac:(lia) Hcp b next Ep).
  - pose proof Ep as Ep'. rewrite Ev in Ep'. apply validate_Fail in Ep'. subst err.
    apply Lookup_Fail. rewrite E. exact Ep.
  - pose proof Ep as Ep'. rewrite Ev in Ep'. apply validate_Continue in Ep'. subst offset'.
    rewrite (Lookup_Continue file (Z.of_nat lo) (Z.of_nat p + 1) Hfit)
      by (rewrite E; exact Ep).
    replace (Z.of_nat p + 1) with (Z.of_nat (S p)) by lia.
    apply (IH (lo + n - S p)%nat); [lia|lia|].
    rewrite none_valid_spec. intros q Hq. apply Hnone. lia.
Qed.

(** ** Chunks *)

Lemma length_chunk b : length (chunk b) = (10 + length b)%nat.
Proof. unfold chunk. rewrite !length_app. simpl. lia. Qed.

Lemma uint16_small n : 0 <= n <= 1024 -> Int.uint16 n = n.
Proof. intros Hn. unfold Int.uint16. apply Z.mod_small. lia. Qed.

(** [Append] of a payload within the limit, on a file: the chunk lands
    at the end. *)
Lemma Append_chunk (file b : list byte) :
  Z.of_nat (length b) <= maxChunkSize ->
  Append file b = (file ++ chunk b, None).
Proof.
  unfold maxChunkSize. intros Hb. unfold Append, maxChunkSize.
  destruct (Z.gtb_spec (Z.of_nat (length b)) 1024) as [|_]; [lia|].
  unfold Write, file_Writer.
  rewrite Write_thrice, uint16_small by lia.
  rewrite encodeU32_magicCookie, encodeU16_be16, encodeU32_be32.
  unfold chunk. rewrite <- !app_assoc. reflexivity.
Qed.

(** The four calls of [Write] that [Append] makes. *)
Lemma Append_writes (log : write_log) (b : list byte) :
  Z.of_nat (length b) <= maxChunkSize ->
  Append log b
  = (log ++ [cookie; be16 (Z.of_nat (length b)); b;
             be32 (crc32.ChecksumIEEE (cookie ++ be16 (Z.of_nat (length b)) ++ b))],
     None).
Proof.
  unfold maxChunkSize. intros Hb. unfold Append, maxChunkSize.
  destruct (Z.gtb_spec (Z.of_nat (length b)) 1024) as [|_]; [lia|].
  unfold Write, log_Writer.
  rewrite Write_thrice, uint16_small by lia.
  rewrite encodeU32_magicCookie, encodeU16_be16, encodeU32_be32.
  rewrite <- !app_assoc. reflexivity.
Qed.

Lemma Append_too_large {W : Type} `{Writer W} (wfile : W) (b : list byte) :
  maxChunkSize < Z.of_nat (length b) ->
  Append wfile b = (wfile, Some ErrChunkSizeLimitExceeded).
Proof.
  intros Hb. unfold Append.
  destruct (Z.gtb_spec (Z.of_nat (length b)) maxChunkSize); [reflexivity|lia].
Qed.

Lemma append_all_chunks bs : forall file,
  Forall (fun b => Z.of_nat (length b) <= maxChunkSize) bs ->
  append_all file bs = (file ++ concat (map chunk bs), None).
Proof.
  induction bs as [|b bs IH]; intros file Hbs; cbn [append_all map concat].
  - rewrite app_nil_r. reflexivity.
  - inversion Hbs as [|? ? Hb Hbs']; subst.
    rewrite Append_chunk by exact Hb. rewrite IH by exact Hbs'.
    rewrite app_assoc. reflexivity.
Qed.

Lemma begins_cookie_chunk b rest : begins_cookie (chunk b ++ rest) = true.
Proof. reflexivity. Qed.

(** What follows the cookie of a chunk is validated and the payload
    returned. *)
Lemma validate_chunk b rest p :
  Z.of_nat (length b) <= maxChunkSize ->
  validate (skipn 4 (chunk b ++ rest)) p
  = (Return b (p + 10 + Z.of_nat (length b)), [Z.of_nat (length b)]).
Proof.
  unfold maxChunkSize. intros Hb.
  unfold chunk. rewrite <- !encodeU16_be16, <- !encodeU32_be32.
  assert (Hn : Z.to_nat (Z.of_nat (length b)) = length b) by apply Nat2Z.id.
  set (n := Z.of_nat (length b)) in *.
  pose proof (Uint16_encodeU16 n ltac:(lia)) as Hsize.
  pose proof (u32_ChecksumIEEE (cookie ++ encodeU16 n ++ b)) as Hcrc.
  set (crc := crc32.ChecksumIEEE (cookie ++ encodeU16 n ++ b)) in *.
  rewrite <- !app_assoc.
  unfold encodeU16, BigEndian.PutUint16 in *.
  cbn [app skipn cookie]. unfold validate. rewrite Hsize, Hn.
  destruct (Z.gtb_spec n 1024) as [|_]; [lia|].
  match goal with |- context [?x <? n + 4] =>
    destruct (Z.ltb_spec x (n + 4)) as [Hlt|_] end.
  { rewrite !length_app in Hlt.
    cbn [encodeU32 BigEndian.PutUint32 length] in Hlt. lia. }
  rewrite firstn_app, Nat.sub_diag, firstn_all, app_nil_r.
  rewrite skipn_app, Nat.sub_diag, skipn_all. cbn [skipn app].
  change (firstn 4 (encodeU32 crc ++ rest)) with (encodeU32 crc).
  rewrite Uint32_encodeU32 by exact Hcrc.
  fold cookie. unfold crc. rewrite Z.eqb_refl. reflexivity.
Qed.

(** A pass that begins where a chunk begins returns its payload and the
    offset after its checksum. *)
Lemma Lookup_pass_chunk pre b post :
  stream_fits (pre ++ chunk b ++ post) ->
  Z.of_nat (length b) <= maxChunkSize ->
  Lookup_pass (pre ++ chunk b ++ post) (Z.of_nat (length pre))
  = (Return b (Z.of_nat (length pre) + 10 + Z.of_nat (length b)),
     [Z.of_nat (length b)]).
Proof.
  intros Hfit Hb.
  assert (Hs : forall k, skipn (length pre + k) (pre ++ chunk b ++ post)
                         = skipn k (chunk b ++ post)).
  { intros k. rewrite Nat.add_comm, <- skipn_skipn.
    rewrite skipn_app, Nat.sub_diag, skipn_all. reflexivity. }
  rewrite Lookup_pass_at_cookie.
  - rewrite Hs. apply validate_chunk. exact Hb.
  - exact Hfit.
  - rewrite cookie_at_nat. rewrite <- (Nat.add_0_r (length pre)), Hs.
    apply begins_cookie_chunk.
Qed.

(** ** Appending, then replaying *)

Lemma replay_chunks bs : forall pre,
  Forall (fun b => Z.of_nat (length b) <= maxChunkSize) bs ->
  stream_fits (pre ++ concat (map chunk bs)) ->
  replay (length bs) (pre ++ concat (map chunk bs)) (Z.of_nat (length pre))
  = chained (Z.of_nat (length pre)) bs.
Proof.
  induction bs as [|b bs IH]; intros pre Hbs Hfit; [reflexivity|].
  inversion Hbs as [|? ? Hb Hbs']; subst.
  cbn [map concat length replay chained] in *.
  rewrite (Lookup_Return _ _ b (Z.of_nat (length pre) + 10 + Z.of_nat (length b)))
    by (rewrite Lookup_pass_chunk by assumption; reflexivity).
  f_equal.
  replace (Z.of_nat (length pre) + 10 + Z.of_nat (length b))
    with (Z.of_nat (length (pre ++ chunk b)))
    by (rewrite length_app, length_chunk; lia).
  rewrite app_assoc in *. apply IH; assumption.
Qed.

(** A single append, then [Lookup] from the start. *)
Lemma Lookup_after_Append (b : list byte) :
  Z.of_nat (length b) <= maxChunkSize ->
  Lookup (fst (Append [] b)) 0 = Some (inr (b, 10 + Z.of_nat (length b))).
Proof.
  intros Hb. rewrite Append_chunk by exact Hb. cbn [fst app].
  apply Lookup_Return.
  pose proof (Lookup_pass_chunk [] b []) as H. cbn [app length] in H.
  change (Z.of_nat 0) with 0 in H.
  rewrite app_nil_r in H. rewrite H; [reflexivity| |exact Hb].
  unfold stream_fits, Int.max_int64, maxChunkSize in *. rewrite length_chunk. lia.
Qed.

(** C1: for every sequence of payloads of at most 1024 bytes each,
    appended in order to an empty log (whose length an [int64] holds),
    none of the appends fails, and as many calls of [Lookup] as there are
    payloads, the first from offset 0 and each next one from the offset
    the one before returned, return the payloads in order, each with the
    offset it was called with plus 10 plus the length of its payload. *)
Theorem append_then_replay (bs : list (list byte)) :
  Forall (fun b => Z.of_nat (length b) <= maxChunkSize) bs ->
  stream_fits (fst (append_all [] bs)) ->
  snd (append_all [] bs) = None /\
  replay (length bs) (fst (append_all [] bs)) 0 = chained 0 bs.
Proof.
  intros Hbs. rewrite append_all_chunks by exact Hbs. cbn [fst snd].
  intros Hfit. split; [reflexivity|].
  exact (replay_chunks bs [] Hbs Hfit).
Qed.

Lemma append_then_replay_witness :
  replay 2 (fst (append_all [] [abcd; efgh])) 0 = [(abcd, 14); (efgh, 28)].
Proof.
  apply (append_then_replay [abcd; efgh]).
  - repeat constructor; vm_compute; discriminate.
  - vm_compute. discriminate.
Defined.

(** ** What [Lookup] returns *)

Lemma ReadFull_length r n b r' :
  io.ReadFull r n = inr (b, r') -> length b = n.
Proof.
  unfold io.ReadFull. destruct n as [|n].
  - intros [= <- <-]. reflexivity.
  - destruct r as [|a r]; [discriminate|].
    destruct (Nat.ltb_spec (length (a :: r)) (S n)); [discriminate|].
    intros [= <- <-]. cbn [length] in *. rewrite length_firstn. lia.
Qed.

Lemma Lookup_chunk_Return_size r offset b next :
  fst (Lookup_chunk r offset) = Return b next ->
  Z.of_nat (length b) <= maxChunkSize.
Proof.
  unfold Lookup_chunk.
  destruct (readU16 r) as [err|[size r1]]; [discriminate|].
  destruct (Z.gtb_spec size maxChunkSize) as [|Hsize]; [discriminate|].
  destruct (io.ReadFull r1 (Z.to_nat size)) as [err|[b' r2]] eqn:Eb; [discriminate|].
  destruct (readU32 r2) as [err|[sum r3]]; [discriminate|].
  match goal with |- context [if ?c then _ else _] => destruct c end;
    [discriminate|].
  cbn [fst]. intros [= <- _]. apply ReadFull_length in Eb.
  unfold maxChunkSize in *. lia.
Qed.

Lemma Lookup_pass_Return_size file offset b next :
  fst (Lookup_pass file offset) = Return b next ->
  Z.of_nat (length b) <= maxChunkSize.
Proof.
  unfold Lookup_pass.
  destruct (io.Seek file offset) as [err|[ret r]]; [discriminate|].
  destruct (negb (ret =? offset)); [discriminate|].
  destruct (io.ReadFull r 4) as [err|[sync r1]]; [discriminate|].
  destruct (seek_cookie r1 sync 0 offset) as [err|[offset' r2]]; [discriminate|].
  apply Lookup_chunk_Return_size.
Qed.

(** C10: every payload that [Lookup] returns has at most 1024 bytes,
    whatever the bytes of the file and the offset. *)
Theorem Lookup_payload_bounded file offset b next :
  Lookup file offset = Some (inr (b, next)) ->
  Z.of_nat (length b) <= 1024.
Proof.
  unfold Lookup. generalize (S (length file)) as fuel. intros fuel. revert offset.
  induction fuel as [|fuel IH]; intros offset; [discriminate|].
  rewrite Lookup_loop_S.
  destruct (fst (Lookup_pass file offset)) as [b' next'|err|offset'] eqn:E.
  - intros [= <- <-]. exact (Lookup_pass_Return_size _ _ _ _ E).
  - discriminate.
  - apply IH.
Qed.

Lemma Lookup_payload_bounded_witness :
  Z.of_nat (length abcd) <= 1024.
Proof.
  apply (Lookup_payload_bounded (fst (Append [] abcd)) 0 abcd 14).
  vm_compute. reflexivity.
Defined.

(** C9: every [Lookup] that returns a chunk, on a file whose length an
    [int64] holds, returns a next offset that is the offset where the
    cookie of the chunk was found plus 10 plus the length of the payload;
    that cookie is at or after the requested offset, so the next offset
    is at least the requested offset plus 10. *)
Theorem Lookup_next_offset file offset b next :
  stream_fits file ->
  Lookup file offset = Some (inr (b, next)) ->
  offset + 10 <= next /\
  exists p : Z,
    offset <= p /\ cookie_at file p = true /\
    next = p + chunkMetadataSize + Z.of_nat (length b).
Proof.
  intros Hfit Hres. unfold Lookup in Hres.
  destruct (Lookup_loop_last file Hfit _ _ _ Hres) as (o & Ho & Hlast).
  destruct (Lookup_pass_Return _ _ _ _ Hfit Hlast)
    as (p & Hp & Hc & _ & Hnext & _ & _).
  unfold chunkMetadataSize. split; [lia|].
  exists (Z.of_nat p). repeat split; [lia|exact Hc|exact Hnext].
Qed.

Lemma Lookup_next_offset_witness :
  0 + 10 <= 14 /\
  exists p : Z,
    0 <= p /\ cookie_at (fst (Append [] abcd)) p = true /\
    14 = p + chunkMetadataSize + Z.of_nat (length abcd).
Proof.
  apply (Lookup_next_offset (fst (Append [] abcd)) 0 abcd 14).
  - vm_compute. discriminate.
  - vm_compute. reflexivity.
Defined.

(** ** Termination *)

(** C7: on every file whose length an [int64] holds and from every
    offset, [Lookup] ends within the passes it is given: with a chunk,
    with the end of the file, or with the error of the seek (a negative
    offset).  Every pass that does not end the loop found a cookie at or
    after its offset and hands the next pass the offset one byte after
    the place where that cookie begins. *)
Theorem Lookup_terminates file offset :
  stream_fits file ->
  (exists res,
      Lookup file offset = Some res /\
      match res with
      | inr (b, next) => True
      | inl err => err = EOF \/ (offset < 0 /\ err = ErrSys io.EINVAL)
      end) /\
  (forall o o',
      fst (Lookup_pass file o) = Continue o' ->
      exists p, o <= p /\ cookie_at file p = true /\ o' = p + 1).
Proof.
  intros Hfit. split.
  - destruct (Lookup_loop_total file Hfit (S (length file)) offset)
      as [res Hres]; [lia|lia|].
    exists res. split; [exact Hres|].
    destruct res as [err|[b next]]; [|exact I].
    destruct (Lookup_loop_last file Hfit _ _ _ Hres) as (o & Ho & Hlast).
    destruct (Lookup_pass_Fail _ _ _ Hfit Hlast) as [[Hneg ->]|[_ ->]].
    + right. split; [lia|reflexivity].
    + left. reflexivity.
  - intros o o' E.
    destruct (Lookup_pass_Continue _ _ _ Hfit E) as (p & Hp & Hc & _ & ->).
    exists (Z.of_nat p). auto.
Qed.

Lemma Lookup_terminates_witness :
  exists res, Lookup (overwrite (fst (Append [] abcd)) 10 Byte.x00) 0 = Some res.
Proof.
  destruct (Lookup_terminates (overwrite (fst (Append [] abcd)) 10 Byte.x00) 0)
    as [(res & Hres & _) _].
  - vm_compute. discriminate.
  - exists res. exact Hres.
Defined.

(** ** The bounds check *)

(** C6: when the two bytes after the first cookie at or after the offset
    of a pass (on a file whose length an [int64] holds) give a length
    greater than 1024, the pass makes no payload buffer and ends with the
    offset one byte after the place where the cookie begins, from which
    the loop goes on: [Lookup] from the offset of the pass is [Lookup]
    from there. *)
Theorem oversized_length_skipped file offset (p : nat) size r :
  stream_fits file ->
  0 <= offset <= Z.of_nat p ->
  cookie_at file (Z.of_nat p) = true ->
  (forall q : nat, offset <= Z.of_nat q -> (q < p)%nat ->
                   cookie_at file (Z.of_nat q) = false) ->
  readU16 (skipn (p + 4) file) = inr (size, r) ->
  size > maxChunkSize ->
  Lookup_pass file offset = (Continue (Z.of_nat p + 1), []) /\
  (forall fuel, Lookup_loop (S fuel) file offset
                = Lookup_loop fuel file (Z.of_nat p + 1)) /\
  Lookup file offset = Lookup file (Z.of_nat p + 1).
Proof.
  intros Hfit Hoff Hc Hfirst Hsize Hbig.
  assert (E : Lookup_pass file offset = (Continue (Z.of_nat p + 1), [])).
  { destruct (Lookup_pass_cookie file offset Hfit)
      as [[Hno _]|(p' & Hp' & Hcp' & _ & Hleast & E & Ev)]; [lia| |].
    { rewrite Hno in Hc by lia. discriminate. }
    assert (p' = p).
    { destruct (Nat.lt_trichotomy p' p) as [Hlt|[Heq|Hgt]]; [|exact Heq|].
      - rewrite Hfirst in Hcp' by lia. discriminate.
      - rewrite Hleast in Hc by lia. discriminate. }
    subst p'. rewrite E, Ev. unfold validate.
    unfold readU16 in Hsize.
    destruct (skipn (p + 4) file) as [|h [|l r1]]; try discriminate.
    rewrite ReadFull_ok in Hsize by (simpl; lia).
    change (firstn 2 (h :: l :: r1)) with [h; l] in Hsize.
    assert (Hu : BigEndian.Uint16 [h; l] = size) by congruence.
    rewrite Hu. unfold maxChunkSize in Hbig.
    destruct (Z.gtb_spec size 1024); [reflexivity|lia]. }
  split; [exact E|]. split.
  - intros fuel. rewrite Lookup_loop_S, E. reflexivity.
  - apply Lookup_Continue; [exact Hfit|]. rewrite E. reflexivity.
Qed.

Lemma oversized_length_skipped_witness :
  Lookup_pass (torn_then near_cookie 4 near_cookie) 0 = (Continue 1, []) /\
  Lookup (torn_then near_cookie 4 near_cookie) 0
  = Lookup (torn_then near_cookie 4 near_cookie) 1.
Proof.
  destruct (oversized_length_skipped (torn_then near_cookie 4 near_cookie)
              0 0 0x2471 (skipn 6 (torn_then near_cookie 4 near_cookie)))
    as (H1 & _ & H2); [| | | | | |split; [exact H1|exact H2]].
  - vm_compute. discriminate.
  - lia.
  - vm_compute. reflexivity.
  - intros q _ Hq. lia.
  - vm_compute. reflexivity.
  - vm_compute. reflexivity.
Defined.

(** ** The append engine *)

(** C4: for every payload of at most 1024 bytes, [Append] on a file
    leaves it with, at its end, the four bytes 24 71 62 96 of the cookie
    0x24716296, the two bytes of the length, the payload, and the four
    bytes of the CRC-32 of the three, big endian all; these are the four
    writes it makes, in this order, and 10 bytes more than the payload. *)
Theorem Append_writes_chunk (file : list byte) (log : write_log) (b : list byte) :
  Z.of_nat (length b) <= 1024 ->
  let size := be16 (Z.of_nat (length b)) in
  let sum := be32 (crc32.ChecksumIEEE (be32 0x24716296 ++ size ++ b)) in
  Append file b = (file ++ be32 0x24716296 ++ size ++ b ++ sum, None) /\
  Append log b = (log ++ [be32 0x24716296; size; b; sum], None) /\
  be32 0x24716296 = [Byte.x24; Byte.x71; Byte.x62; Byte.x96] /\
  length (fst (Append file b)) = (length file + (10 + length b))%nat.
Proof.
  intros Hb size sum. change (be32 0x24716296) with cookie in *.
  rewrite Append_chunk, Append_writes by exact Hb.
  repeat split. cbn [fst]. rewrite length_app, length_chunk. reflexivity.
Qed.

Lemma Append_writes_chunk_witness :
  Append (W := list byte) [] abcd
  = ([Byte.x24; Byte.x71; Byte.x62; Byte.x96; Byte.x00; Byte.x04;
      Byte.x61; Byte.x62; Byte.x63; Byte.x64;
      Byte.x65; Byte.x74; Byte.x4c; Byte.x47], None).
Proof.
  destruct (Append_writes_chunk [] [] abcd) as (H & _).
  - vm_compute. discriminate.
  - rewrite H. vm_compute. reflexivity.
Defined.

(** C5: for every payload of more than 1024 bytes, [Append] returns
    [ErrChunkSizeLimitExceeded] and leaves the write handle, whatever it
    is, as it was, without a call of [Write]; the file is unchanged, a
    [Lookup] after the call finds what it found before, and on a log that
    was empty it finds the end of the file. *)
Theorem Append_size_limit {W : Type} `{Writer W}
        (wfile : W) (log : write_log) (file : list byte) (b : list byte) :
  1024 < Z.of_nat (length b) ->
  Append wfile b = (wfile, Some ErrChunkSizeLimitExceeded) /\
  Append log b = (log, Some ErrChunkSizeLimitExceeded) /\
  Append file b = (file, Some ErrChunkSizeLimitExceeded) /\
  (forall offset, Lookup (fst (Append file b)) offset = Lookup file offset) /\
  Lookup (fst (Append [] b)) 0 = Some (inl EOF).
Proof.
  intros Hb. rewrite !Append_too_large by exact Hb. repeat split.
Qed.

Lemma Append_size_limit_witness :
  Append (W := list byte) [] (repeat Byte.x00 1025)
  = ([], Some ErrChunkSizeLimitExceeded) /\
  Lookup (fst (Append [] (repeat Byte.x00 1025))) 0 = Some (inl EOF).
Proof.
  destruct (Append_size_limit (W := list byte) [] [] [] (repeat Byte.x00 1025))
    as (H1 & _ & _ & _ & H2).
  - rewrite repeat_length. vm_compute. reflexivity.
  - split; [exact H1|exact H2].
Defined.

(** ** Closing *)

(** C8: [Close] closes each of the two handles once, whatever closing the
    read handle gives; it returns the error of closing the read handle
    when there is one, and else what closing the write handle gives. *)
Theorem Close_closes_both {R W : Type} `{Closer R} `{Closer W} (aof : AOF R W) :
  rfile (fst (Close aof)) = fst (close (rfile aof)) /\
  wfile (fst (Close aof)) = fst (close (wfile aof)) /\
  snd (Close aof)
  = match snd (close (rfile aof)) with
    | Some err => Some err
    | None => snd (close (wfile aof))
    end.
Proof.
  unfold Close.
  destruct (close (rfile aof)) as [r [err|]];
    destruct (close (wfile aof)) as [w err']; repeat split.
Qed.

(** On descriptors: both are closed once more than before, also when
    closing the read handle fails, and the error of the read handle wins. *)
Lemma Close_descriptors (r w : descriptor) :
  closes (rfile (fst (Close (mkAOF r w)))) = S (closes r) /\
  closes (wfile (fst (Close (mkAOF r w)))) = S (closes w) /\
  snd (Close (mkAOF r w))
  = match close_error r with
    | Some err => Some err
    | None => close_error w
    end.
Proof.
  unfold Close, close, descriptor_Closer. cbn [rfile wfile].
  destruct (close_error r); repeat split.
Qed.

(** ** Checksum mismatch *)

Lemma ReadFull_inv r n b r' :
  io.ReadFull r n = inr (b, r') ->
  b = firstn n r /\ r' = skipn n r /\ (n <= length r)%nat.
Proof.
  unfold io.ReadFull. destruct n as [|n].
  - intros [= <- <-]. repeat split. lia.
  - destruct r as [|a r]; [discriminate|].
    destruct (Nat.ltb_spec (length (a :: r)) (S n)); [discriminate|].
    intros [= <- <-]. repeat split. lia.
Qed.

Lemma Uint32_inj s s' :
  length s = 4%nat -> length s' = 4%nat ->
  BigEndian.Uint32 s = BigEndian.Uint32 s' -> s = s'.
Proof.
  intros Hs Hs' E.
  destruct s as [|a [|b [|c [|d [|]]]]]; try discriminate.
  destruct s' as [|a' [|b' [|c' [|d' [|]]]]]; try discriminate.
  rewrite <- (encodeU32_Uint32 a b c d), <- (encodeU32_Uint32 a' b' c' d'), E.
  reflexivity.
Qed.

(** The pass on the first cookie at or after its offset, when the bytes
    of the would-be chunk are all there and the stored checksum is not
    the computed one. *)
Lemma Lookup_pass_mismatch file offset (p : nat) size r b r' stored r'' :
  stream_fits file ->
  0 <= offset <= Z.of_nat p ->
  cookie_at file (Z.of_nat p) = true ->
  (forall q : nat, offset <= Z.of_nat q -> (q < p)%nat ->
                   cookie_at file (Z.of_nat q) = false) ->
  readU16 (skipn (p + 4) file) = inr (size, r) ->
  size <= maxChunkSize ->
  io.ReadFull r (Z.to_nat size) = inr (b, r') ->
  readU32 r' = inr (stored, r'') ->
  crc32.ChecksumIEEE (encodeU32 magicCookie ++ encodeU16 size ++ b) <> stored ->
  Lookup_pass file offset = (Continue (Z.of_nat p + 1), [size]).
Proof.
  intros Hfit Hoff Hc Hfirst Hsize Hsmall Hb Hsum Hne.
  destruct (Lookup_pass_cookie file offset Hfit)
    as [[Hno _]|(p' & Hp' & Hcp' & _ & Hleast & E & Ev)]; [lia| |].
  { rewrite Hno in Hc by lia. discriminate. }
  assert (p' = p).
  { destruct (Nat.lt_trichotomy p' p) as [Hlt|[Heq|Hgt]]; [|exact Heq|].
    - rewrite Hfirst in Hcp' by lia. discriminate.
    - rewrite Hleast in Hc by lia. discriminate. }
  subst p'. rewrite E, Ev. unfold validate.
  unfold readU16 in Hsize.
  destruct (skipn (p + 4) file) as [|h [|l r1]]; try discriminate.
  rewrite ReadFull_ok in Hsize by (simpl; lia).
  change (firstn 2 (h :: l :: r1)) with [h; l] in Hsize.
  change (skipn 2 (h :: l :: r1)) with r1 in Hsize.
  assert (Hu : BigEndian.Uint16 [h; l] = size) by congruence.
  assert (r = r1) by congruence. subst r.
  pose proof (Uint16_range h l) as Hrange. rewrite Hu in Hrange.
  rewrite Hu. unfold maxChunkSize in Hsmall.
  destruct (Z.gtb_spec size 1024); [lia|].
  apply ReadFull_inv in Hb. destruct Hb as (-> & -> & Hlen).
  unfold readU32 in Hsum.
  destruct (io.ReadFull (skipn (Z.to_nat size) r1) 4) as [|[s r3]] eqn:Es;
    [discriminate|].
  apply ReadFull_inv in Es. destruct Es as (-> & _ & Hlen4).
  rewrite length_skipn in Hlen4.
  destruct (Z.ltb_spec (Z.of_nat (length r1)) (size + 4)); [lia|].
  assert (Hst : BigEndian.Uint32 (firstn 4 (skipn (Z.to_nat size) r1)) = stored)
    by congruence.
  rewrite Hst. rewrite encodeU32_magicCookie, <- Hu, encodeU16_Uint16, Hu in Hne.
  destruct (Z.eqb_spec
              (crc32.ChecksumIEEE (cookie ++ [h; l] ++ firstn (Z.to_nat size) r1))
              stored); [contradiction|reflexivity].
Qed.

Lemma overwrite_app_mid (pre s post : list byte) k v :
  (k < length s)%nat ->
  overwrite (pre ++ s ++ post) (length pre + k) v
  = pre ++ overwrite s k v ++ post.
Proof.
  intros Hk. unfold overwrite.
  rewrite firstn_app, firstn_all2 by lia.
  replace (length pre + k - length pre)%nat with k by lia.
  rewrite firstn_app. replace (k - length s)%nat with O by lia.
  rewrite firstn_O, app_nil_r.
  replace (S (length pre + k)) with (length pre + S k)%nat by lia.
  rewrite skipn_app, (skipn_all2 pre) by lia.
  replace (length pre + S k - length pre)%nat with (S k) by lia.
  rewrite skipn_app. replace (S k - length s)%nat with O by lia.
  cbn [skipn app]. rewrite <- !app_assoc. reflexivity.
Qed.

Lemma length_overwrite s k v :
  (k < length s)%nat -> length (overwrite s k v) = length s.
Proof.
  intros Hk. unfold overwrite.
  rewrite length_app, length_firstn. cbn [length]. rewrite length_skipn. lia.
Qed.

Lemma overwrite_changes s k v :
  (k < length s)%nat -> nth k s Byte.x00 <> v -> overwrite s k v <> s.
Proof.
  intros Hk Hv E. apply Hv.
  rewrite <- E at 1. unfold overwrite.
  rewrite app_nth2 by (rewrite length_firstn; lia).
  rewrite length_firstn, Nat.min_l by lia.
  rewrite Nat.sub_diag. reflexivity.
Qed.

(** What follows the cookie of a frame with the length and the payload
    of a chunk, and four bytes [s] where the checksum is stored. *)
Lemma validate_frame b s rest p :
  Z.of_nat (length b) <= maxChunkSize ->
  length s = 4%nat ->
  let covered := cookie ++ be16 (Z.of_nat (length b)) ++ b in
  validate (skipn 4 (covered ++ s ++ rest)) p
  = if crc32.ChecksumIEEE covered =? BigEndian.Uint32 s
    then (Return b (p + 10 + Z.of_nat (length b)), [Z.of_nat (length b)])
    else (Continue (p + 1), [Z.of_nat (length b)]).
Proof.
  intros Hb Hs covered. unfold covered, maxChunkSize in *. clear covered.
  rewrite <- !encodeU16_be16.
  assert (Hn : Z.to_nat (Z.of_nat (length b)) = length b) by apply Nat2Z.id.
  set (n := Z.of_nat (length b)) in *.
  pose proof (Uint16_encodeU16 n ltac:(lia)) as Hsize.
  rewrite <- !app_assoc.
  unfold encodeU16, BigEndian.PutUint16 in *.
  cbn [app skipn cookie]. unfold validate. rewrite Hsize, Hn.
  destruct (Z.gtb_spec n 1024) as [|_]; [lia|].
  match goal with |- context [?x <? n + 4] =>
    destruct (Z.ltb_spec x (n + 4)) as [Hlt|_] end.
  { rewrite !length_app in Hlt. lia. }
  rewrite firstn_app, Nat.sub_diag, firstn_all, app_nil_r.
  rewrite skipn_app, Nat.sub_diag, skipn_all. cbn [skipn app].
  rewrite firstn_app, firstn_all2 by lia.
  replace (4 - length s)%nat with O by lia. rewrite firstn_O, app_nil_r.
  fold cookie. reflexivity.
Qed.

Lemma chunk_frame b :
  chunk b
  = (cookie ++ be16 (Z.of_nat (length b)) ++ b)
      ++ be32 (crc32.ChecksumIEEE (cookie ++ be16 (Z.of_nat (length b)) ++ b)).
Proof. reflexivity. Qed.

Lemma length_covered b :
  length (cookie ++ be16 (Z.of_nat (length b)) ++ b) = (6 + length b)%nat.
Proof. rewrite !length_app. reflexivity. Qed.

(** A file that begins with a chunk of which one byte of the stored
    checksum was overwritten by another value: the frame, the four bytes
    [s] where the checksum was, which are not those of the checksum, and
    the rest. *)
Lemma corrupted_frame b rest k v :
  (k < 4)%nat ->
  nth (6 + length b + k) (chunk b) Byte.x00 <> v ->
  exists s,
    length s = 4%nat /\
    BigEndian.Uint32 s
    <> crc32.ChecksumIEEE (cookie ++ be16 (Z.of_nat (length b)) ++ b) /\
    overwrite (chunk b ++ rest) (6 + length b + k) v
    = (cookie ++ be16 (Z.of_nat (length b)) ++ b) ++ s ++ rest.
Proof.
  intros Hk Hv. rewrite chunk_frame in *.
  set (covered := cookie ++ be16 (Z.of_nat (length b)) ++ b) in *.
  set (sum := crc32.ChecksumIEEE covered) in *.
  assert (Hlen : length covered = (6 + length b)%nat) by apply length_covered.
  rewrite <- Hlen in *.
  rewrite app_nth2_plus in Hv.
  exists (overwrite (be32 sum) k v). split; [|split].
  - rewrite length_overwrite; [reflexivity|exact Hk].
  - intros E. apply (overwrite_changes (be32 sum) k v); [exact Hk|exact Hv|].
    apply Uint32_inj.
    + rewrite length_overwrite; [reflexivity|exact Hk].
    + reflexivity.
    + rewrite E, <- encodeU32_be32. symmetry.
      apply Uint32_encodeU32, u32_ChecksumIEEE.
  - rewrite <- app_assoc. rewrite overwrite_app_mid by exact Hk.
    reflexivity.
Qed.

(** The pass from the start of such a file goes on from offset 1. *)
Lemma corrupted_first_pass b rest k v :
  Z.of_nat (length b) <= maxChunkSize ->
  stream_fits (chunk b ++ rest) ->
  (k < 4)%nat ->
  nth (6 + length b + k) (chunk b) Byte.x00 <> v ->
  Lookup_pass (overwrite (chunk b ++ rest) (6 + length b + k) v) 0
  = (Continue 1, [Z.of_nat (length b)]).
Proof.
  intros Hb Hfit Hk Hv.
  destruct (corrupted_frame b rest k v Hk Hv) as (s & Hs & Hne & ->).
  assert (Hfit' : stream_fits ((cookie ++ be16 (Z.of_nat (length b)) ++ b) ++ s ++ rest)).
  { unfold stream_fits in *. rewrite chunk_frame in Hfit.
    rewrite !length_app in *. rewrite Hs.
    change (length (be32 (crc32.ChecksumIEEE
                            (cookie ++ be16 (Z.of_nat (length b)) ++ b))))
      with 4%nat in Hfit.
    lia. }
  change 0 with (Z.of_nat 0).
  rewrite (Lookup_pass_at_cookie _ O Hfit') by reflexivity.
  cbn [Nat.add]. rewrite validate_frame by assumption.
  change (Z.of_nat 0 + 1) with 1.
  destruct (Z.eqb_spec (crc32.ChecksumIEEE (cookie ++ be16 (Z.of_nat (length b)) ++ b))
                       (BigEndian.Uint32 s)) as [E|_]; [congruence|reflexivity].
Qed.

Lemma stream_fits_small file :
  Z.of_nat (length file) <= 4096 -> stream_fits file.
Proof. unfold stream_fits, Int.max_int64. lia. Qed.

(** C2 (as amended): a pass that finds, after the first cookie at or
    after its offset, a length within the limit, the payload and the four
    bytes of a stored checksum that is not the CRC-32 of cookie, length
    and payload, returns no error: it goes on from one byte after the
    place where the cookie begins, and [Lookup] is [Lookup] from there.
    With two chunks appended to an empty log and one byte of the stored
    checksum of the first overwritten by another value, [Lookup] from 0
    returns the payload of the second chunk and the offset after it,
    provided every cookie that begins inside the first chunk after its
    first byte is rejected; with one chunk appended and so overwritten,
    [Lookup] from 0 finds the end of the file, provided no cookie that
    begins inside the chunk after its first byte begins a chunk that a
    pass returns. *)
Theorem checksum_mismatch_skipped :
  (forall file offset (p : nat) size r b r' stored r'',
      stream_fits file ->
      0 <= offset <= Z.of_nat p ->
      cookie_at file (Z.of_nat p) = true ->
      (forall q : nat, offset <= Z.of_nat q -> (q < p)%nat ->
                       cookie_at file (Z.of_nat q) = false) ->
      readU16 (skipn (p + 4) file) = inr (size, r) ->
      size <= maxChunkSize ->
      io.ReadFull r (Z.to_nat size) = inr (b, r') ->
      readU32 r' = inr (stored, r'') ->
      crc32.ChecksumIEEE (encodeU32 magicCookie ++ encodeU16 size ++ b) <> stored ->
      fst (Lookup_pass file offset) = Continue (Z.of_nat p + 1) /\
      Lookup file offset = Lookup file (Z.of_nat p + 1)) /\
  (forall (b1 b2 : list byte) (k : nat) (v : byte),
      Z.of_nat (length b1) <= maxChunkSize ->
      Z.of_nat (length b2) <= maxChunkSize ->
      (k < 4)%nat ->
      let log1 : list byte := fst (Append [] b1) in
      let log2 : list byte := fst (Append log1 b2) in
      let i := (6 + length b1 + k)%nat in
      nth i log1 Byte.x00 <> v ->
      (only_rejected (overwrite log2 i v) 1 (9 + length b1) = true ->
       Lookup (overwrite log2 i v) 0
       = Some (inr (b2, 20 + Z.of_nat (length b1) + Z.of_nat (length b2)))) /\
      (none_valid (overwrite log1 i v) 1 (9 + length b1) = true ->
       Lookup (overwrite log1 i v) 0 = Some (inl EOF))).
Proof.
  split.
  - intros file offset p size r b r' stored r'' Hfit Hoff Hc Hfirst Hsize Hsmall
           Hb Hsum Hne.
    pose proof (Lookup_pass_mismatch _ _ _ _ _ _ _ _ _
                  Hfit Hoff Hc Hfirst Hsize Hsmall Hb Hsum Hne) as E.
    split; [rewrite E; reflexivity|].
    apply Lookup_Continue; [exact Hfit|]. rewrite E. reflexivity.
  - intros b1 b2 k v Hb1 Hb2 Hk log1 log2 i Hv.
    unfold log2, log1 in *. clear log1 log2.
    rewrite !Append_chunk in * by assumption. cbn [fst app] in *.
    unfold maxChunkSize in *.
    split.
    + intros Hrej.
      assert (Hfit : stream_fits (chunk b1 ++ chunk b2)).
      { apply stream_fits_small. rewrite length_app, !length_chunk. lia. }
      pose proof (corrupted_first_pass b1 (chunk b2) k v Hb1 Hfit Hk Hv) as E.
      fold i in E.
      destruct (corrupted_frame b1 (chunk b2) k v Hk Hv) as (s & Hs & _ & Ef).
      fold i in Ef. rewrite Ef in *.
      set (pre := (cookie ++ be16 (Z.of_nat (length b1)) ++ b1) ++ s).
      assert (Hpre : length pre = (10 + length b1)%nat).
      { unfold pre. rewrite length_app, length_covered, Hs. lia. }
      assert (Efile : (cookie ++ be16 (Z.of_nat (length b1)) ++ b1) ++ s ++ chunk b2
                      = pre ++ chunk b2 ++ []).
      { unfold pre. rewrite app_nil_r. apply app_assoc. }
      rewrite Efile in *.
      assert (Hfit' : stream_fits (pre ++ chunk b2 ++ [])).
      { apply stream_fits_small.
        rewrite !length_app, Hpre, length_chunk. cbn [length]. lia. }
      pose proof (Lookup_pass_chunk pre b2 [] Hfit' Hb2) as Hret.
      rewrite (Lookup_Continue _ 0 1 Hfit') by (rewrite E; reflexivity).
      change 1 with (Z.of_nat 1).
      rewrite (Lookup_resync _ Hfit' (9 + length b1) 1 Hrej).
      * replace (1 + (9 + length b1))%nat with (length pre) by lia.
        apply Lookup_Return. rewrite Hret. cbn [fst]. f_equal. lia.
      * replace (1 + (9 + length b1))%nat with (length pre) by lia.
        rewrite cookie_at_nat.
        rewrite skipn_app, skipn_all, Nat.sub_diag. reflexivity.
    + intros Hnone.
      assert (Hfit : stream_fits (chunk b1 ++ [])).
      { apply stream_fits_small. rewrite length_app, !length_chunk. cbn [length]. lia. }
      pose proof (corrupted_first_pass b1 [] k v Hb1 Hfit Hk Hv) as E.
      fold i in E. rewrite app_nil_r in E.
      assert (Hlen : length (overwrite (chunk b1) i v) = (10 + length b1)%nat).
      { rewrite length_overwrite; rewrite length_chunk; unfold i; lia. }
      assert (Hfit' : stream_fits (overwrite (chunk b1) i v)).
      { apply stream_fits_small. rewrite Hlen. lia. }
      rewrite (Lookup_Continue _ 0 1 Hfit') by (rewrite E; reflexivity).
      change 1 with (Z.of_nat 1).
      apply (Lookup_none_valid _ Hfit' (9 + length b1)); [lia|exact Hnone].
Qed.

Lemma checksum_mismatch_skipped_witness :
  fst (Lookup_pass (overwrite (log_of2 abcd efgh) 10 Byte.x00) 0) = Continue 1 /\
  Lookup (overwrite (log_of2 abcd efgh) 10 Byte.x00) 0 = Some (inr (efgh, 28)) /\
  Lookup (overwrite (log_of1 abcd) 10 Byte.x00) 0 = Some (inl EOF).
Proof.
  destruct checksum_mismatch_skipped as [Hrule Hlogs].
  split; [|split].
  - apply (Hrule (overwrite (log_of2 abcd efgh) 10 Byte.x00) 0 O 4
                 (skipn 6 (overwrite (log_of2 abcd efgh) 10 Byte.x00))
                 abcd
                 (skipn 10 (overwrite (log_of2 abcd efgh) 10 Byte.x00))
                 0x00744c47
                 (skipn 14 (overwrite (log_of2 abcd efgh) 10 Byte.x00))).
    + vm_compute. discriminate.
    + lia.
    + vm_compute. reflexivity.
    + intros q _ Hq. lia.
    + vm_compute. reflexivity.
    + vm_compute. discriminate.
    + vm_compute. reflexivity.
    + vm_compute. reflexivity.
    + vm_compute. discriminate.
  - apply (Hlogs abcd efgh O Byte.x00).
    + vm_compute. discriminate.
    + vm_compute. discriminate.
    + lia.
    + vm_compute. discriminate.
    + vm_compute. reflexivity.
  - apply (Hlogs abcd efgh O Byte.x00).
    + vm_compute. discriminate.
    + vm_compute. discriminate.
    + lia.
    + vm_compute. discriminate.
    + vm_compute. reflexivity.
Defined.

(** The consequences that C2 draws do not hold for every payload: when
    the payload of the first chunk is itself a chunk, [Lookup] from 0,
    after the overwrite of a byte of the stored checksum, returns that
    inner chunk, with two chunks appended as with one; when it is a
    cookie followed by the length 1024, [Lookup] from 0 finds the end of
    the file although the second chunk follows. *)
Lemma checksum_mismatch_counterexample :
  Z.of_nat (length embedded) <= maxChunkSize /\
  nth 17 (log_of1 embedded) Byte.x00 <> Byte.x00 /\
  Lookup (overwrite (log_of2 embedded efgh) 17 Byte.x00) 0
  = Some (inr ([Byte.x78], 17)) /\
  Lookup (overwrite (log_of2 embedded efgh) 17 Byte.x00) 0
  <> Some (inr (efgh, 20 + Z.of_nat (length embedded) + Z.of_nat (length efgh))) /\
  Lookup (overwrite (log_of1 embedded) 17 Byte.x00) 0
  = Some (inr ([Byte.x78], 17)) /\
  Lookup (overwrite (log_of1 embedded) 17 Byte.x00) 0 <> Some (inl EOF) /\
  nth 12 (log_of1 (cookie ++ [Byte.x04; Byte.x00])) Byte.x00 <> Byte.x00 /\
  Lookup (overwrite (log_of2 (cookie ++ [Byte.x04; Byte.x00]) efgh) 12 Byte.x00) 0
  = Some (inl EOF).
Proof.
  repeat split; vm_compute; solve [reflexivity | discriminate].
Qed.

(** ** Torn writes and alignment *)

(** Bytes in which no cookie begins are skipped, however many they are. *)
Lemma Lookup_after_garbage (junk b : list byte) :
  Z.of_nat (length b) <= maxChunkSize ->
  stream_fits (junk ++ chunk b) ->
  (forall q : nat, (q < length junk)%nat ->
                   cookie_at (junk ++ chunk b) (Z.of_nat q) = false) ->
  Lookup (junk ++ chunk b) 0
  = Some (inr (b, Z.of_nat (length junk) + 10 + Z.of_nat (length b))).
Proof.
  intros Hb Hfit Hno.
  pose proof (Lookup_pass_chunk junk b []) as Hret. rewrite app_nil_r in Hret.
  change 0 with (Z.of_nat 0).
  rewrite (Lookup_resync _ Hfit (length junk) O).
  - apply Lookup_Return. cbn [Nat.add]. rewrite Hret by assumption. reflexivity.
  - rewrite only_rejected_spec. intros q Hq Hc.
    rewrite Hno in Hc by lia. discriminate.
  - cbn [Nat.add]. rewrite cookie_at_nat, skipn_app, skipn_all, Nat.sub_diag.
    reflexivity.
Qed.

Lemma torn_then_app b1 k b2 :
  Z.of_nat (length b1) <= maxChunkSize ->
  Z.of_nat (length b2) <= maxChunkSize ->
  torn_then b1 k b2 = firstn k (chunk b1) ++ chunk b2.
Proof.
  intros Hb1 Hb2. unfold torn_then, log_of1.
  rewrite (Append_chunk [] b1) by exact Hb1. cbn [fst app].
  rewrite Append_chunk by exact Hb2. reflexivity.
Qed.

(** C3: a chunk cut partway through is not always skipped.  When the
    chunk of [b1] is cut after [k] bytes, with its cookie and length
    still there (6 <= k), and the append of [b2] that follows leaves
    fewer bytes in the file than the length of [b1] announces
    (k + len(b2) < len(b1)), the pass of [Lookup] from 0 reads the length
    of [b1], runs out of bytes in the payload and returns [EOF]; it does
    not go on one byte further as it does after a length above 1024 or a
    checksum that differs.  The chunk of [b2] is in the file and whole:
    [Lookup] from [k] returns it. *)
Theorem torn_remnant_hides_next_chunk (b1 b2 : list byte) (k : nat) :
  Z.of_nat (length b1) <= maxChunkSize ->
  Z.of_nat (length b2) <= maxChunkSize ->
  (6 <= k)%nat ->
  (k + length b2 < length b1)%nat ->
  fst (Lookup_pass (torn_then b1 k b2) 0) = Fail EOF /\
  Lookup (torn_then b1 k b2) 0 = Some (inl EOF) /\
  Lookup (torn_then b1 k b2) (Z.of_nat k)
  = Some (inr (b2, Z.of_nat k + 10 + Z.of_nat (length b2))).
Proof.
  intros Hb1 Hb2 Hk Hshort.
  rewrite torn_then_app by assumption. unfold maxChunkSize in *.
  assert (Hlen : length (firstn k (chunk b1)) = k).
  { rewrite length_firstn, length_chunk. lia. }
  assert (Hfit : stream_fits (firstn k (chunk b1) ++ chunk b2)).
  { apply stream_fits_small. rewrite length_app, Hlen, length_chunk. lia. }
  assert (Hpass : fst (Lookup_pass (firstn k (chunk b1) ++ chunk b2) 0) = Fail EOF).
  { remember (k - 6)%nat as m eqn:Em.
    assert (Ek : k = (6 + m)%nat) by lia. clear Em Hk. subst k.
    revert Hlen Hfit. rewrite !(chunk_frame b1), <- !app_assoc.
    pose proof (Uint16_encodeU16 (Z.of_nat (length b1)) ltac:(lia)) as Hsize.
    rewrite encodeU16_be16 in Hsize. unfold be16 in *.
    assert (Hsum : length (be32 (crc32.ChecksumIEEE
                     (cookie ++ [byte.of_Z (Z.of_nat (length b1) / 2 ^ 8);
                                 byte.of_Z (Z.of_nat (length b1) mod 2 ^ 8)] ++ b1)))
                   = 4%nat) by reflexivity.
    set (sum := be32 _) in *.
    change (firstn (6 + m) (cookie ++ ?hl ++ b1 ++ sum))
      with (cookie ++ hl ++ firstn m (b1 ++ sum)).
    rewrite <- !app_assoc.
    intros Hlen Hfit.
    change 0 with (Z.of_nat 0).
    rewrite (Lookup_pass_at_cookie _ O Hfit) by reflexivity.
    cbn [Nat.add cookie app skipn]. unfold validate. rewrite Hsize.
    destruct (Z.gtb_spec (Z.of_nat (length b1)) 1024); [lia|].
    match goal with |- context [?x <? ?y] =>
      destruct (Z.ltb_spec x y) as [_|Hge] end; [reflexivity|].
    rewrite !length_app, length_firstn, length_app, length_chunk in Hge.
    lia. }
  split; [exact Hpass|]. split.
  - apply Lookup_Fail. exact Hpass.
  - pose proof (Lookup_pass_chunk (firstn k (chunk b1)) b2 []) as Hret.
    rewrite app_nil_r, Hlen in Hret.
    apply Lookup_Return. rewrite Hret by assumption. reflexivity.
Qed.

Lemma torn_remnant_hides_next_chunk_witness :
  Lookup (torn_then (repeat Byte.x61 100) 6 abcd) 0 = Some (inl EOF) /\
  Lookup (torn_then (repeat Byte.x61 100) 6 abcd) 6 = Some (inr (abcd, 20)).
Proof.
  destruct (torn_remnant_hides_next_chunk (repeat Byte.x61 100) abcd 6)
    as (_ & H0 & H6).
  - vm_compute. discriminate.
  - vm_compute. discriminate.
  - lia.
  - vm_compute. lia.
  - split; [exact H0|exact H6].
Defined.

(** A chunk cut partway through and followed by a complete chunk is not
    always skipped: cut after its first 5 bytes, the chunk of the payload
    of the test is read as a chunk of 36 bytes, more than the file has,
    and [Lookup] from 0 finds the end of the file; cut after an inner
    chunk that its payload holds, [Lookup] from 0 returns the inner
    chunk. *)
Example torn_at_5_and_inner_chunk :
  Lookup (torn_then near_cookie 5 near_cookie) 0 = Some (inl EOF) /\
  Lookup (torn_then near_cookie 5 near_cookie) 0
  <> Some (inr (near_cookie, 5 + 10 + Z.of_nat (length near_cookie))) /\
  Lookup (torn_then (embedded ++ repeat Byte.x00 9) 17 near_cookie) 0
  = Some (inr ([Byte.x78], 17)) /\
  Lookup (torn_then (embedded ++ repeat Byte.x00 9) 17 near_cookie) 0
  <> Some (inr (near_cookie, 17 + 10 + Z.of_nat (length near_cookie))).
Proof.
  repeat split; vm_compute; solve [reflexivity | discriminate].
Qed.

(** ** The tests of the package, run on the model *)

(** [TestAppendThenLookup]. *)
Example test_AppendThenLookup :
  Lookup (log_of1 abcd) 0 = Some (inr (abcd, 14)).
Proof. vm_compute. reflexivity. Qed.

(** [TestAppendThenLookupInvalidChunkFindsNext]: the first byte of the
    checksum of the first chunk set to 0. *)
Example test_InvalidChunkFindsNext :
  Lookup (overwrite (log_of2 abcd efgh) 10 Byte.x00) 0 = Some (inr (efgh, 28)).
Proof. vm_compute. reflexivity. Qed.

(** [TestAppendThenLookupInvalidChunkFindsNextIncludesCookie]. *)
Example test_InvalidChunkFindsNextIncludesCookie :
  Lookup (overwrite (fst (Append (log_of2 near_cookie near_cookie) near_cookie))
                    10 Byte.x00) 0
  = Some (inr (near_cookie, 28)) /\
  Lookup (overwrite (fst (Append (log_of2 near_cookie near_cookie) near_cookie))
                    10 Byte.x00) 28
  = Some (inr (near_cookie, 42)).
Proof. split; vm_compute; reflexivity. Qed.

(** [TestAppendPartialWriteIgnored]: the file cut to 7 bytes. *)
Example test_PartialWriteIgnored :
  Lookup (torn_then near_cookie 7 near_cookie) 0 = Some (inr (near_cookie, 21)).
Proof. vm_compute. reflexivity. Qed.

(** [TestAppendThenLookupInvalidCRC]. *)
Example test_InvalidCRC :
  Lookup (overwrite (log_of1 abcd) 10 Byte.x00) 0 = Some (inl EOF).
Proof. vm_compute. reflexivity. Qed.

(** [TestAppendTooLarge]. *)
Example test_AppendTooLarge :
  snd (Append (W := list byte) [] (repeat Byte.x00 1025))
  = Some ErrChunkSizeLimitExceeded.
Proof. vm_compute. reflexivity. Qed.

(** * Further properties *)

(** ** The codec *)

Lemma Uint32_range a b c d : 0 <= BigEndian.Uint32 [a; b; c; d] < 2 ^ 32.
Proof.
  change (u32 (BigEndian.Uint32 [a; b; c; d])). rewrite u32_bits.
  unfold BigEndian.Uint32. split.
  - pose proof (byte.unsigned_range a). pose proof (byte.unsigned_range b).
    pose proof (byte.unsigned_range c). pose proof (byte.unsigned_range d).
    repeat (apply Z.lor_nonneg; split); try apply Z.shiftl_nonneg; lia.
  - intros i Hi.
    rewrite !Z.lor_spec, !Z.shiftl_spec by lia.
    rewrite !byte_bits_high by lia. reflexivity.
Qed.

(** X1: what [encodeU16] and [encodeU32] write, the readers read back:
    after the two bytes of a 16-bit number, [readU16] returns the number
    and leaves the handle after them; the same for the four bytes of a
    32-bit number and [readU32]. *)
Theorem encode_then_read (n16 n32 : Z) (rest : list byte) :
  0 <= n16 < 2 ^ 16 ->
  0 <= n32 < 2 ^ 32 ->
  readU16 (encodeU16 n16 ++ rest) = inr (n16, rest) /\
  readU32 (encodeU32 n32 ++ rest) = inr (n32, rest).
Proof.
  intros H16 H32. split.
  - apply readU16_app. exact H16.
  - apply readU32_app. exact H32.
Qed.

Lemma encode_then_read_witness :
  readU16 (encodeU16 1024 ++ [Byte.x61]) = inr (1024, [Byte.x61]) /\
  readU32 (encodeU32 magicCookie ++ [Byte.x61]) = inr (magicCookie, [Byte.x61]).
Proof.
  apply (encode_then_read 1024 magicCookie [Byte.x61]).
  - lia.
  - unfold magicCookie. lia.
Defined.

(** X2: what the readers return, the encoders write back: when [readU16]
    succeeds its number is a 16-bit one and its two bytes followed by the
    bytes left are the bytes it was given; the same for [readU32]. *)
Theorem read_then_encode (r : list byte) :
  (forall n r', readU16 r = inr (n, r') ->
                0 <= n < 2 ^ 16 /\ encodeU16 n ++ r' = r) /\
  (forall n r', readU32 r = inr (n, r') ->
                0 <= n < 2 ^ 32 /\ encodeU32 n ++ r' = r).
Proof.
  split; intros n r'.
  - unfold readU16.
    destruct (io.ReadFull r 2) as [err|[buf r1]] eqn:E; [discriminate|].
    apply ReadFull_inv in E. destruct E as (-> & -> & Hlen).
    destruct r as [|h [|l r]]; try (simpl in Hlen; lia).
    change (firstn 2 (h :: l :: r)) with [h; l].
    change (skipn 2 (h :: l :: r)) with r.
    intros E.
    assert (En : n = BigEndian.Uint16 [h; l]) by congruence.
    assert (Er : r' = r) by congruence. subst n r'.
    split; [apply Uint16_range|].
    rewrite encodeU16_Uint16. reflexivity.
  - unfold readU32.
    destruct (io.ReadFull r 4) as [err|[buf r1]] eqn:E; [discriminate|].
    apply ReadFull_inv in E. destruct E as (-> & -> & Hlen).
    destruct r as [|a [|b [|c [|d r]]]]; try (simpl in Hlen; lia).
    change (firstn 4 (a :: b :: c :: d :: r)) with [a; b; c; d].
    change (skipn 4 (a :: b :: c :: d :: r)) with r.
    intros E.
    assert (En : n = BigEndian.Uint32 [a; b; c; d]) by congruence.
    assert (Er : r' = r) by congruence. subst n r'.
    split; [apply Uint32_range|].
    rewrite encodeU32_Uint32. reflexivity.
Qed.

Lemma read_then_encode_witness :
  encodeU16 0x2471 ++ [Byte.x62; Byte.x96] = cookie.
Proof.
  destruct (read_then_encode cookie) as [H16 _].
  apply (H16 0x2471 [Byte.x62; Byte.x96]). vm_compute. reflexivity.
Defined.

(** ** The window *)

Lemma begins_cookie_inv a b c d t :
  begins_cookie (a :: b :: c :: d :: t) = true ->
  a = Byte.x24 /\ b = Byte.x71 /\ c = Byte.x62 /\ d = Byte.x96.
Proof.
  unfold begins_cookie. rewrite !andb_true_iff.
  intros [[[Ha Hb] Hc] Hd].
  repeat split; apply Byte.byte_dec_bl; assumption.
Qed.

(** X4: [isCookie] reads the window as a ring: [sp] counts only modulo
    4, and, the four bytes of the cookie being different from one
    another, a window that holds the cookie read from [sp] does not hold
    it read from [sp + 1], [sp + 2] or [sp + 3]. *)
Theorem isCookie_ring (s0 s1 s2 s3 : byte) (sp k : Z) :
  isCookie [s0; s1; s2; s3] (Int.add64 sp 4) = isCookie [s0; s1; s2; s3] sp /\
  (1 <= k <= 3 ->
   isCookie [s0; s1; s2; s3] sp = true ->
   isCookie [s0; s1; s2; s3] (Int.add64 sp k) = false).
Proof.
  rewrite !isCookie_window, !land3_add64. split.
  - destruct (land3_cases sp) as [E|[E|[E|E]]]; rewrite E; reflexivity.
  - intros Hk.
    assert (Ek : k = 1 \/ k = 2 \/ k = 3) by lia.
    destruct (land3_cases sp) as [E|[E|[E|E]]]; rewrite E;
      destruct Ek as [ -> | [ -> | -> ] ];
      cbv - [begins_cookie];
      intros Hc; apply begins_cookie_inv in Hc;
      destruct Hc as (? & ? & ? & ?); subst; reflexivity.
Qed.

Lemma isCookie_ring_witness :
  isCookie [Byte.x96; Byte.x24; Byte.x71; Byte.x62] (Int.add64 1 3) = false.
Proof.
  apply (isCookie_ring Byte.x96 Byte.x24 Byte.x71 Byte.x62 1 3).
  - lia.
  - vm_compute. reflexivity.
Defined.

(** ** What [Lookup] returns is in the file *)

Lemma begins_cookie_split u :
  begins_cookie u = true -> u = cookie ++ skipn 4 u.
Proof.
  destruct u as [|a [|b [|c [|d t]]]]; try discriminate.
  intros Hc. apply begins_cookie_inv in Hc.
  destruct Hc as (-> & -> & -> & ->). reflexivity.
Qed.

(** When [validate] returns a payload, the bytes after the cookie are
    the rest of the chunk of that payload. *)
Lemma validate_Return_bytes r p b next :
  fst (validate r p) = Return b next ->
  exists post,
    r = be16 (Z.of_nat (length b)) ++ b
          ++ be32 (crc32.ChecksumIEEE (cookie ++ be16 (Z.of_nat (length b)) ++ b))
          ++ post.
Proof.
  unfold validate. destruct r as [|h [|l r1]]; try discriminate.
  pose proof (Uint16_range h l) as Hsize.
  pose proof (encodeU16_Uint16 h l) as Hhl.
  set (size := BigEndian.Uint16 [h; l]) in *.
  destruct (Z.gtb_spec size 1024); [discriminate|].
  destruct (Z.ltb_spec (Z.of_nat (length r1)) (size + 4)) as [|Hlen];
    [discriminate|].
  match goal with |- context [?x =? ?y] => destruct (Z.eqb_spec x y) as [Esum|] end;
    [|discriminate].
  cbn [fst]. intros E.
  assert (Eb : b = firstn (Z.to_nat size) r1) by congruence. clear E.
  assert (Elen : Z.of_nat (length b) = size).
  { rewrite Eb, length_firstn, Nat.min_l by lia. lia. }
  rewrite <- Eb in Esum.
  remember (firstn 4 (skipn (Z.to_nat size) r1)) as s eqn:Es.
  assert (Hs : length s = 4%nat).
  { rewrite Es, length_firstn, length_skipn. lia. }
  exists (skipn 4 (skipn (Z.to_nat size) r1)).
  rewrite Elen, <- encodeU16_be16, <- encodeU32_be32, Hhl.
  rewrite Esum.
  destruct s as [|a0 [|a1 [|a2 [|a3 [|]]]]]; try discriminate.
  rewrite encodeU32_Uint32, Es, firstn_skipn, Eb, firstn_skipn. reflexivity.
Qed.

(** X5: a payload that [Lookup] returns was found as a chunk of the
    file: on a file whose length an [int64] holds, the file is some bytes,
    then the chunk of that payload (cookie, length, payload and the
    CRC-32 of the three), then some bytes; the chunk begins at or after
    the requested offset and the next offset is where it ends. *)
Theorem Lookup_returns_chunk_of_file file offset b next :
  stream_fits file ->
  Lookup file offset = Some (inr (b, next)) ->
  exists pre post,
    file = pre ++ chunk b ++ post /\
    offset <= Z.of_nat (length pre) /\
    next = Z.of_nat (length pre) + 10 + Z.of_nat (length b).
Proof.
  intros Hfit Hres. unfold Lookup in Hres.
  destruct (Lookup_loop_last file Hfit _ _ _ Hres) as (o & Ho & Hlast).
  destruct (Lookup_pass_Return _ _ _ _ Hfit Hlast)
    as (p & Hp & Hc & Hpass & Hnext & _ & Hend).
  rewrite (Lookup_pass_at_cookie _ _ Hfit Hc) in Hpass.
  apply validate_Return_bytes in Hpass. destruct Hpass as (post & Er).
  rewrite cookie_at_nat in Hc. apply begins_cookie_split in Hc.
  rewrite skipn_skipn, (Nat.add_comm 4 p), Er in Hc.
  exists (firstn p file), post. split; [|split].
  - rewrite <- (firstn_skipn p file) at 1. rewrite Hc.
    unfold chunk. rewrite <- !app_assoc. reflexivity.
  - assert (p <= length file)%nat by lia.
    rewrite length_firstn, Nat.min_l by lia. lia.
  - assert (p <= length file)%nat by lia.
    rewrite length_firstn, Nat.min_l by lia. lia.
Qed.

Lemma Lookup_returns_chunk_of_file_witness :
  exists pre post,
    overwrite (log_of2 abcd efgh) 10 Byte.x00 = pre ++ chunk efgh ++ post /\
    0 <= Z.of_nat (length pre) /\
    28 = Z.of_nat (length pre) + 10 + Z.of_nat (length efgh).
Proof.
  apply (Lookup_returns_chunk_of_file (overwrite (log_of2 abcd efgh) 10 Byte.x00) 0).
  - vm_compute. discriminate.
  - vm_compute. reflexivity.
Defined.

(** X6: [Lookup] from the offset where a chunk of a payload of at most
    1024 bytes begins returns that payload and the offset where the chunk
    ends, whatever bytes come before and after the chunk (the file's
    length being an [int64]). *)
Theorem Lookup_at_chunk_start (pre b post : list byte) :
  Z.of_nat (length b) <= maxChunkSize ->
  stream_fits (pre ++ chunk b ++ post) ->
  Lookup (pre ++ chunk b ++ post) (Z.of_nat (length pre))
  = Some (inr (b, Z.of_nat (length pre) + 10 + Z.of_nat (length b))).
Proof.
  intros Hb Hfit. apply Lookup_Return.
  rewrite Lookup_pass_chunk by assumption. reflexivity.
Qed.

Lemma Lookup_at_chunk_start_witness :
  Lookup (log_of2 abcd efgh ++ cookie) 14 = Some (inr (efgh, 28)).
Proof.
  apply (Lookup_at_chunk_start (chunk abcd) efgh cookie).
  - vm_compute. discriminate.
  - vm_compute. discriminate.
Defined.

(** ** The end of the log *)

Lemma Lookup_no_room file offset :
  stream_fits file ->
  0 <= offset ->
  Z.of_nat (length file) < offset + 10 ->
  Lookup file offset = Some (inl EOF).
Proof.
  intros Hfit Hoff Hshort.
  destruct (Lookup_loop_total file Hfit (S (length file)) offset)
    as [res Hres]; [lia|lia|].
  unfold Lookup. rewrite Hres. f_equal.
  destruct (Lookup_loop_last file Hfit _ _ _ Hres) as (o & Ho & Hlast).
  destruct res as [err|[b next]].
  - destruct (Lookup_pass_Fail _ _ _ Hfit Hlast) as [[Hneg _]|[_ ->]];
      [lia|reflexivity].
  - destruct (Lookup_pass_Return _ _ _ _ Hfit Hlast)
      as (p & Hp & _ & _ & Hnext & _ & Hend). lia.
Qed.

(** X7: from an offset within the file (0 <= offset <= length) with
    fewer than 10 bytes to the end of the file (fewer than the chunk of
    the empty payload has), and so on the empty file and from the end of
    any file, [Lookup] returns [EOF]. *)
Theorem Lookup_near_end file offset :
  stream_fits file ->
  0 <= offset <= Z.of_nat (length file) ->
  Z.of_nat (length file) < offset + 10 ->
  Lookup file offset = Some (inl EOF) /\
  Lookup [] 0 = Some (inl EOF) /\
  Lookup file (Z.of_nat (length file)) = Some (inl EOF).
Proof.
  intros Hfit Hoff Hshort. split; [|split].
  - apply Lookup_no_room; [assumption|lia|assumption].
  - reflexivity.
  - apply Lookup_no_room; [assumption|lia|lia].
Qed.

Lemma Lookup_near_end_witness :
  Lookup (log_of2 abcd efgh) 20 = Some (inl EOF).
Proof.
  apply (Lookup_near_end (log_of2 abcd efgh) 20).
  - vm_compute. discriminate.
  - vm_compute. split; discriminate.
  - vm_compute. reflexivity.
Defined.

(** The log of the payloads [bs], replayed with [extra] calls more than
    it has chunks. *)
Lemma replay_chunks_more bs extra : forall pre,
  Forall (fun b => Z.of_nat (length b) <= maxChunkSize) bs ->
  stream_fits (pre ++ concat (map chunk bs)) ->
  replay (length bs + extra) (pre ++ concat (map chunk bs)) (Z.of_nat (length pre))
  = chained (Z.of_nat (length pre)) bs.
Proof.
  induction bs as [|b bs IH]; intros pre Hbs Hfit.
  - cbn [map concat length chained Nat.add]. rewrite app_nil_r in *.
    destruct extra as [|extra]; [reflexivity|]. cbn [replay].
    rewrite Lookup_no_room by (try assumption; lia). reflexivity.
  - inversion Hbs as [|? ? Hb Hbs']; subst.
    cbn [map concat length replay chained Nat.add] in *.
    rewrite (Lookup_Return _ _ b (Z.of_nat (length pre) + 10 + Z.of_nat (length b)))
      by (rewrite Lookup_pass_chunk by assumption; reflexivity).
    f_equal.
    replace (Z.of_nat (length pre) + 10 + Z.of_nat (length b))
      with (Z.of_nat (length (pre ++ chunk b)))
      by (rewrite length_app, length_chunk; lia).
    rewrite app_assoc in *. apply IH; assumption.
Qed.

(** X8: replaying the log of payloads of at most 1024 bytes each,
    appended to an empty log, ends after the last of them: however many
    calls of [Lookup] more are made, each from the offset the one before
    returned, the payloads and offsets returned are those of the
    payloads appended, and the call after the last chunk returns [EOF]. *)
Theorem replay_ends_with_log (bs : list (list byte)) (extra : nat) :
  Forall (fun b => Z.of_nat (length b) <= maxChunkSize) bs ->
  stream_fits (fst (append_all [] bs)) ->
  replay (length bs + extra) (fst (append_all [] bs)) 0 = chained 0 bs /\
  Lookup (fst (append_all [] bs)) (Z.of_nat (length (fst (append_all [] bs))))
  = Some (inl EOF).
Proof.
  intros Hbs. rewrite append_all_chunks by exact Hbs. cbn [fst app].
  intros Hfit. split.
  - exact (replay_chunks_more bs extra [] Hbs Hfit).
  - apply Lookup_no_room; [exact Hfit|lia|lia].
Qed.

Lemma replay_ends_with_log_witness :
  replay 5 (fst (append_all [] [abcd; efgh])) 0 = [(abcd, 14); (efgh, 28)].
Proof.
  apply (replay_ends_with_log [abcd; efgh] 3).
  - repeat constructor; vm_compute; discriminate.
  - vm_compute. discriminate.
Defined.

(** ** Appending does not undo what was found *)

Lemma begins_cookie_app u m :
  (4 <= length u)%nat -> begins_cookie (u ++ m) = begins_cookie u.
Proof.
  destruct u as [|a [|b [|c [|d t]]]]; simpl; intros; try lia. reflexivity.
Qed.

Lemma begins_cookie_length u : begins_cookie u = true -> (4 <= length u)%nat.
Proof.
  destruct u as [|a [|b [|c [|d t]]]]; try discriminate. simpl. lia.
Qed.

Lemma first_cookie_app u m : forall j,
  first_cookie u = Some j -> first_cookie (u ++ m) = Some j.
Proof.
  induction u as [|a u IH]; intros j; [discriminate|].
  cbn [first_cookie app]. change (a :: u ++ m) with ((a :: u) ++ m).
  destruct (begins_cookie (a :: u)) eqn:B.
  - intros [= <-].
    rewrite begins_cookie_app, B by (apply begins_cookie_length; exact B).
    reflexivity.
  - destruct (first_cookie u) as [i|] eqn:Ei; [|discriminate].
    intros [= <-]. apply first_cookie_bound in Ei.
    rewrite begins_cookie_app, B by (cbn [length]; lia).
    rewrite (IH i eq_refl). reflexivity.
Qed.

Lemma validate_app r m p :
  (forall err, fst (validate r p) <> Fail err) ->
  validate (r ++ m) p = validate r p.
Proof.
  unfold validate. destruct r as [|h [|l r1]];
    try (intros Hnf; exfalso; exact (Hnf EOF eq_refl)).
  cbn [app].
  set (size := BigEndian.Uint16 [h; l]).
  pose proof (Uint16_range h l) as Hsize. fold size in Hsize.
  destruct (Z.gtb_spec size 1024) as [Hbig|Hsmall]; [reflexivity|].
  destruct (Z.ltb_spec (Z.of_nat (length r1)) (size + 4)) as [Hshort|Hlen];
    [intros Hnf; exfalso; exact (Hnf EOF eq_refl)|].
  intros _.
  destruct (Z.ltb_spec (Z.of_nat (length (r1 ++ m))) (size + 4)) as [Hlt|_];
    [rewrite length_app in Hlt; lia|].
  rewrite firstn_app, skipn_app.
  replace (Z.to_nat size - length r1)%nat with O by lia.
  rewrite firstn_O, app_nil_r. cbn [skipn].
  rewrite firstn_app, length_skipn.
  replace (4 - (length r1 - Z.to_nat size))%nat with O by lia.
  rewrite firstn_O, app_nil_r. reflexivity.
Qed.

(** A pass that does not end at the end of the file does the same when
    bytes are added to the file. *)
Lemma Lookup_pass_app file more offset :
  stream_fits (file ++ more) ->
  (forall err, fst (Lookup_pass file offset) <> Fail err) ->
  Lookup_pass (file ++ more) offset = Lookup_pass file offset.
Proof.
  intros Hfit' Hnf.
  assert (Hfit : stream_fits file).
  { unfold stream_fits in *. rewrite length_app in Hfit'. lia. }
  destruct (Z.lt_ge_cases offset 0) as [Hneg|Hpos].
  { rewrite Lookup_pass_negative in Hnf by exact Hneg.
    exfalso. exact (Hnf _ eq_refl). }
  rewrite !Lookup_pass_view in * by assumption.
  destruct (first_cookie (skipn (Z.to_nat offset) file)) as [j|] eqn:Ej;
    [|exfalso; exact (Hnf _ eq_refl)].
  pose proof (first_cookie_bound _ _ Ej) as Hj. rewrite length_skipn in Hj.
  rewrite skipn_app.
  replace (Z.to_nat offset - length file)%nat with O by lia. cbn [skipn].
  rewrite (first_cookie_app _ more j Ej).
  rewrite skipn_app.
  replace (Z.to_nat offset + j + 4 - length file)%nat with O by lia. cbn [skipn].
  apply validate_app. exact Hnf.
Qed.

Lemma Lookup_loop_app file more b next :
  stream_fits (file ++ more) ->
  forall fuel offset,
    Lookup_loop fuel file offset = Some (inr (b, next)) ->
    Lookup_loop fuel (file ++ more) offset = Some (inr (b, next)).
Proof.
  intros Hfit. induction fuel as [|fuel IH]; intros offset; [discriminate|].
  rewrite !Lookup_loop_S.
  destruct (fst (Lookup_pass file offset)) as [b' next'|err|offset'] eqn:E.
  - rewrite Lookup_pass_app, E by (try exact Hfit; rewrite E; discriminate).
    trivial.
  - discriminate.
  - rewrite Lookup_pass_app, E by (try exact Hfit; rewrite E; discriminate).
    apply IH.
Qed.

(** X9: what [Lookup] has returned it returns again after bytes were
    added at the end of the file: the same payload and next offset from
    the same offset, for any bytes added, and so after any [Append] (the
    file's length staying an [int64]). *)
Theorem Lookup_stable_under_Append file offset b next more b' :
  stream_fits (file ++ more) ->
  stream_fits (fst (Append file b')) ->
  Lookup file offset = Some (inr (b, next)) ->
  Lookup (file ++ more) offset = Some (inr (b, next)) /\
  Lookup (fst (Append file b')) offset = Some (inr (b, next)).
Proof.
  intros Hfit Hfit' Hres.
  assert (Hmore : forall m, stream_fits (file ++ m) ->
                            Lookup (file ++ m) offset = Some (inr (b, next))).
  { intros m Hm. unfold Lookup in *.
    apply (Lookup_loop_more _ _ (S (length file))).
    - apply Lookup_loop_app; assumption.
    - rewrite length_app. lia. }
  split; [apply Hmore; exact Hfit|].
  destruct (Z.le_gt_cases (Z.of_nat (length b')) maxChunkSize) as [Hb|Hb].
  - rewrite Append_chunk in * by exact Hb. apply Hmore. exact Hfit'.
  - rewrite Append_too_large by lia. exact Hres.
Qed.

Lemma Lookup_stable_under_Append_witness :
  Lookup (log_of1 abcd ++ [Byte.x24; Byte.x71]) 0 = Some (inr (abcd, 14)) /\
  Lookup (log_of2 abcd efgh) 0 = Some (inr (abcd, 14)).
Proof.
  apply (Lookup_stable_under_Append (log_of1 abcd) 0 abcd 14
                                    [Byte.x24; Byte.x71] efgh).
  - vm_compute. discriminate.
  - vm_compute. discriminate.
  - vm_compute. reflexivity.
Defined.

(** ** Torn tails *)

Lemma chunk_fields b :
  chunk b
  = cookie ++ be16 (Z.of_nat (length b)) ++ b
      ++ be32 (crc32.ChecksumIEEE (cookie ++ be16 (Z.of_nat (length b)) ++ b)).
Proof. unfold chunk. rewrite <- !app_assoc. reflexivity. Qed.

Lemma first_cookie_here u : begins_cookie u = true -> first_cookie u = Some O.
Proof.
  destruct u as [|a u]; [discriminate|]. cbn [first_cookie]. intros ->. reflexivity.
Qed.

(** What follows the cookie in a chunk cut before its end does not
    validate: the bytes run out. *)
Lemma validate_torn b m p :
  Z.of_nat (length b) <= maxChunkSize ->
  (m < 6 + length b)%nat ->
  fst (validate
         (firstn m (be16 (Z.of_nat (length b)) ++ b
                      ++ be32 (crc32.ChecksumIEEE
                                 (cookie ++ be16 (Z.of_nat (length b)) ++ b))))
         p)
  = Fail EOF.
Proof.
  unfold maxChunkSize. intros Hb Hm.
  set (sum := be32 _).
  pose proof (Uint16_encodeU16 (Z.of_nat (length b)) ltac:(lia)) as Hsize.
  rewrite encodeU16_be16 in Hsize. unfold be16 in *.
  destruct m as [|[|m]]; [reflexivity|reflexivity|].
  cbn [app firstn]. unfold validate. rewrite Hsize.
  destruct (Z.gtb_spec (Z.of_nat (length b)) 1024); [lia|].
  match goal with |- context [?x <? ?y] => destruct (Z.ltb_spec x y) as [_|Hge] end;
    [reflexivity|].
  rewrite length_firstn in Hge. lia.
Qed.

(** The pass from the place where a chunk cut before its end begins, at
    the end of a file, ends at the end of the file. *)
Lemma Lookup_pass_torn pre b k :
  Z.of_nat (length b) <= maxChunkSize ->
  (k < 10 + length b)%nat ->
  stream_fits (pre ++ firstn k (chunk b)) ->
  fst (Lookup_pass (pre ++ firstn k (chunk b)) (Z.of_nat (length pre))) = Fail EOF.
Proof.
  intros Hb Hk Hfit.
  rewrite Lookup_pass_view by (try exact Hfit; lia).
  rewrite Nat2Z.id.
  assert (Hs : forall j, skipn (length pre + j) (pre ++ firstn k (chunk b))
                         = skipn j (firstn k (chunk b))).
  { intros j. rewrite Nat.add_comm, <- skipn_skipn.
    rewrite skipn_app, Nat.sub_diag, skipn_all. reflexivity. }
  rewrite <- (Nat.add_0_r (length pre)) at 1. rewrite Hs. cbn [skipn].
  destruct (Nat.lt_ge_cases k 4) as [Hlt|Hge].
  - rewrite first_cookie_short; [reflexivity|].
    rewrite length_firstn. lia.
  - replace k with (4 + (k - 4))%nat in * by lia.
    remember (k - 4)%nat as m eqn:Em. clear Em Hge.
    rewrite chunk_fields in *.
    change (firstn (4 + m) (cookie ++ ?x)) with (cookie ++ firstn m x) in *.
    rewrite first_cookie_here by reflexivity.
    rewrite <- Nat.add_assoc, Hs. cbn [Nat.add].
    change (skipn 4 (cookie ++ ?x)) with x.
    apply validate_torn; [exact Hb|lia].
Qed.

(** X10: a chunk cut before its end, at the end of the file, is not
    returned: [Lookup] from the place where it begins returns [EOF],
    wherever the chunk was cut (payload of at most 1024 bytes, file
    length an [int64]). *)
Theorem Lookup_torn_tail pre b k :
  Z.of_nat (length b) <= maxChunkSize ->
  (k < 10 + length b)%nat ->
  stream_fits (pre ++ firstn k (chunk b)) ->
  Lookup (pre ++ firstn k (chunk b)) (Z.of_nat (length pre)) = Some (inl EOF).
Proof.
  intros Hb Hk Hfit. apply Lookup_Fail. apply Lookup_pass_torn; assumption.
Qed.

Lemma Lookup_torn_tail_witness :
  Lookup (chunk abcd ++ firstn 13 (chunk efgh)) 14 = Some (inl EOF).
Proof.
  apply (Lookup_torn_tail (chunk abcd) efgh 13).
  - vm_compute. discriminate.
  - vm_compute. lia.
  - vm_compute. discriminate.
Defined.

(** ** An [Append] that a failing write interrupts *)

Lemma firstn_fields b k :
  (k < 4)%nat ->
  firstn (fields_written b k) (chunk b)
  = match k with
    | O => []
    | 1%nat => cookie
    | 2%nat => cookie ++ be16 (Z.of_nat (length b))
    | _ => cookie ++ be16 (Z.of_nat (length b)) ++ b
    end.
Proof.
  intros Hk. rewrite chunk_fields.
  destruct k as [|[|[|[|k]]]]; try lia; try reflexivity.
  cbn [fields_written].
  change (cookie ++ be16 (Z.of_nat (length b)) ++ b ++ ?s)
    with (Byte.x24 :: Byte.x71 :: Byte.x62 :: Byte.x96
            :: byte.of_Z (Z.of_nat (length b) / 2 ^ 8)
            :: byte.of_Z (Z.of_nat (length b) mod 2 ^ 8) :: (b ++ s)).
  cbn [Nat.add firstn].
  rewrite firstn_app, Nat.sub_diag, firstn_all, firstn_O, app_nil_r.
  reflexivity.
Qed.

(** X11: when, of the writes of an [Append] of a payload of at most
    1024 bytes, the one numbered [k] (0 the cookie, 1 the length, 2 the
    payload, 3 the checksum) fails, [Append] returns the error of that
    write and makes no write after it: the handle has seen k + 1 calls,
    although a later call would have succeeded, and the file holds,
    after what it held, the fields written before, a chunk cut after 0,
    4, 6 or 6 + len(b) bytes; [Lookup] from the old end of the file
    returns [EOF].  When none of the four fails, [Append] returns no
    error after four calls and the file holds the whole chunk. *)
Theorem Append_interrupted (file b : list byte) (k j : nat) :
  Z.of_nat (length b) <= maxChunkSize ->
  (k < 4)%nat ->
  stream_fits (file ++ chunk b) ->
  Append (mkFlaky file 0 k) b
  = (mkFlaky (file ++ firstn (fields_written b k) (chunk b)) (S k) k,
     Some (ErrSys EIO)) /\
  Lookup (written (fst (Append (mkFlaky file 0 k) b))) (Z.of_nat (length file))
  = Some (inl EOF) /\
  Append (mkFlaky file 0 (4 + j)) b = (mkFlaky (file ++ chunk b) 4 (4 + j), None).
Proof.
  intros Hb Hk Hfit.
  assert (Happ : Append (mkFlaky file 0 k) b
                 = (mkFlaky (file ++ firstn (fields_written b k) (chunk b)) (S k) k,
                    Some (ErrSys EIO))).
  { rewrite firstn_fields by exact Hk.
    unfold Append, maxChunkSize in *.
    destruct (Z.gtb_spec (Z.of_nat (length b)) 1024) as [|_]; [lia|].
    rewrite uint16_small, encodeU32_magicCookie, encodeU16_be16 by lia.
    destruct k as [|[|[|[|k]]]]; try lia;
      unfold Write, flaky_Writer; cbn [calls fails_at written Nat.eqb];
      rewrite <- ?app_assoc, ?app_nil_r; reflexivity. }
  split; [exact Happ|]. split.
  - rewrite Happ. cbn [fst written].
    apply Lookup_Fail. apply Lookup_pass_torn.
    + exact Hb.
    + destruct k as [|[|[|[|k]]]]; cbn [fields_written]; lia.
    + unfold stream_fits in *. rewrite length_app in *.
      rewrite length_firstn. lia.
  - unfold Append, maxChunkSize in *.
    destruct (Z.gtb_spec (Z.of_nat (length b)) 1024) as [|_]; [lia|].
    rewrite Write_thrice, uint16_small by lia.
    rewrite encodeU32_magicCookie, encodeU16_be16, encodeU32_be32.
    unfold Write, flaky_Writer. cbn [calls fails_at written Nat.add Nat.eqb].
    rewrite chunk_fields, <- !app_assoc. reflexivity.
Qed.

Lemma Append_interrupted_witness :
  Append (mkFlaky (chunk abcd) 0 2) efgh
  = (mkFlaky (chunk abcd ++ firstn 6 (chunk efgh)) 3 2, Some (ErrSys EIO)) /\
  Lookup (written (fst (Append (mkFlaky (chunk abcd) 0 2) efgh))) 14
  = Some (inl EOF).
Proof.
  destruct (Append_interrupted (chunk abcd) efgh 2 0) as (H1 & H2 & _).
  - vm_compute. discriminate.
  - lia.
  - vm_compute. discriminate.
  - split; [exact H1|exact H2].
Defined.

(** ** The earlier Lookup *)

Lemma Legacy_seek_cookie_found r sync sp :
  isCookie sync sp = true -> Legacy.seek_cookie r sync sp = inr (sync, sp, r).
Proof. intros Hc. destruct r; cbn [Legacy.seek_cookie]; rewrite Hc; reflexivity. Qed.

(** The earlier Lookup on a frame that begins at its offset: cookie, a
    length, as many payload bytes, and any four bytes. *)
Lemma Legacy_Lookup_frame pre b s post :
  Z.of_nat (length b) < 2 ^ 16 ->
  length s = 4%nat ->
  stream_fits (pre ++ cookie ++ encodeU16 (Z.of_nat (length b)) ++ b ++ s ++ post) ->
  Legacy.Lookup (pre ++ cookie ++ encodeU16 (Z.of_nat (length b)) ++ b ++ s ++ post)
                (Z.of_nat (length pre))
  = inr (b, Z.of_nat (length pre) + 10 + Z.of_nat (length b)).
Proof.
  intros Hb Hs Hfit. unfold Legacy.Lookup, io.Seek.
  destruct (Z.ltb_spec (Z.of_nat (length pre)) 0); [lia|].
  rewrite Z.eqb_refl. cbn [negb].
  rewrite Nat2Z.id, skipn_app, Nat.sub_diag, skipn_all. cbn [skipn app].
  change 4%nat with (length cookie) at 1. rewrite ReadFull_app.
  rewrite Legacy_seek_cookie_found by reflexivity.
  rewrite readU16_app by lia.
  rewrite Nat2Z.id, ReadFull_app.
  unfold readU32. rewrite <- Hs, ReadFull_app.
  unfold stream_fits in Hfit. rewrite !length_app in Hfit.
  cbn [length cookie encodeU16 BigEndian.PutUint16] in Hfit.
  rewrite (add64_id (Z.of_nat (length pre)) 0)
    by (unfold Int.max_int64 in *; lia).
  rewrite (add64_id (Z.of_nat (length pre) + 0) 10)
    by (unfold Int.max_int64 in *; lia).
  rewrite add64_id by (unfold Int.max_int64 in *; lia).
  f_equal. f_equal. lia.
Qed.

(** X12: from the offset where a chunk of a payload of at most 1024
    bytes begins, the earlier Lookup returns what [Lookup] returns: the
    payload and the offset where the chunk ends. *)
Theorem Legacy_Lookup_at_chunk_start (pre b post : list byte) :
  Z.of_nat (length b) <= maxChunkSize ->
  stream_fits (pre ++ chunk b ++ post) ->
  Legacy.Lookup (pre ++ chunk b ++ post) (Z.of_nat (length pre))
  = inr (b, Z.of_nat (length pre) + 10 + Z.of_nat (length b)) /\
  Some (Legacy.Lookup (pre ++ chunk b ++ post) (Z.of_nat (length pre)))
  = Lookup (pre ++ chunk b ++ post) (Z.of_nat (length pre)).
Proof.
  unfold maxChunkSize. intros Hb Hfit.
  assert (E : Legacy.Lookup (pre ++ chunk b ++ post) (Z.of_nat (length pre))
              = inr (b, Z.of_nat (length pre) + 10 + Z.of_nat (length b))).
  { rewrite chunk_fields, <- !app_assoc, <- encodeU16_be16 in *.
    apply Legacy_Lookup_frame; [lia|reflexivity|exact Hfit]. }
  split; [exact E|]. rewrite E. symmetry.
  apply Lookup_Return. rewrite Lookup_pass_chunk by assumption. reflexivity.
Qed.

Lemma Legacy_Lookup_at_chunk_start_witness :
  Legacy.Lookup (log_of2 abcd efgh) 14 = inr (efgh, 28).
Proof.
  apply (Legacy_Lookup_at_chunk_start (chunk abcd) efgh []).
  - vm_compute. discriminate.
  - vm_compute. discriminate.
Defined.

(** X13: the earlier Lookup checks neither the checksum nor the length:
    from the offset of a cookie followed by a 16-bit length, as many
    payload bytes and any four bytes, it returns the payload, whatever
    the four bytes are and also when the length is above 1024. *)
Theorem Legacy_Lookup_checks_nothing (pre b s post : list byte) :
  Z.of_nat (length b) < 2 ^ 16 ->
  length s = 4%nat ->
  stream_fits (pre ++ cookie ++ encodeU16 (Z.of_nat (length b)) ++ b ++ s ++ post) ->
  Legacy.Lookup (pre ++ cookie ++ encodeU16 (Z.of_nat (length b)) ++ b ++ s ++ post)
                (Z.of_nat (length pre))
  = inr (b, Z.of_nat (length pre) + 10 + Z.of_nat (length b)).
Proof. apply Legacy_Lookup_frame. Qed.

Lemma Legacy_Lookup_checks_nothing_witness :
  Legacy.Lookup (overwrite (log_of1 abcd) 10 Byte.x00) 0 = inr (abcd, 14) /\
  Legacy.Lookup (cookie ++ encodeU16 1025 ++ repeat Byte.x00 1025 ++ cookie) 0
  = inr (repeat Byte.x00 1025, 1035).
Proof.
  split.
  - apply (Legacy_Lookup_checks_nothing
             [] abcd [Byte.x00; Byte.x74; Byte.x4c; Byte.x47] []).
    + vm_compute. reflexivity.
    + reflexivity.
    + vm_compute. discriminate.
  - pose proof (Legacy_Lookup_checks_nothing
                  [] (repeat Byte.x00 1025) cookie []) as H.
    rewrite repeat_length, app_nil_r in H. apply H.
    + vm_compute. reflexivity.
    + reflexivity.
    + unfold stream_fits. rewrite !length_app, repeat_length. vm_compute. discriminate.
Defined.

(** ** What [Lookup] reads and makes *)

Lemma Lookup_pass_from_offset file file' offset :
  skipn (Z.to_nat offset) file = skipn (Z.to_nat offset) file' ->
  Lookup_pass file offset = Lookup_pass file' offset.
Proof. intros E. unfold Lookup_pass, io.Seek. rewrite E. reflexivity. Qed.

Lemma skipn_eq_later (f f' : list byte) (n m : nat) :
  (n <= m)%nat -> skipn n f = skipn n f' -> skipn m f = skipn m f'.
Proof.
  intros Hnm E. replace m with ((m - n) + n)%nat by lia.
  rewrite <- !skipn_skipn, E. reflexivity.
Qed.

(** X14: [Lookup] does not read before its offset: on two files of the
    same length (an [int64]) that hold the same bytes from the offset on,
    it returns the same. *)
Theorem Lookup_reads_from_offset file file' offset :
  stream_fits file ->
  length file = length file' ->
  skipn (Z.to_nat offset) file = skipn (Z.to_nat offset) file' ->
  Lookup file offset = Lookup file' offset.
Proof.
  intros Hfit Hlen. unfold Lookup. rewrite <- Hlen.
  generalize (S (length file)) as fuel. intros fuel. revert offset.
  induction fuel as [|fuel IH]; intros offset E; [reflexivity|].
  rewrite !Lookup_loop_S, <- (Lookup_pass_from_offset file file' offset E).
  destruct (fst (Lookup_pass file offset)) as [b next|err|offset'] eqn:Ep;
    try reflexivity.
  destruct (Lookup_pass_Continue _ _ _ Hfit Ep) as (p & Hp & _ & _ & ->).
  apply IH.
  destruct (Z.lt_ge_cases offset 0) as [Hneg|Hpos].
  - rewrite Lookup_pass_negative in Ep by exact Hneg. discriminate.
  - apply (skipn_eq_later _ _ (Z.to_nat offset)); [lia|exact E].
Qed.

Lemma Lookup_reads_from_offset_witness :
  Lookup (overwrite (log_of2 abcd efgh) 3 Byte.x00) 14 = Lookup (log_of2 abcd efgh) 14.
Proof.
  apply (Lookup_reads_from_offset (overwrite (log_of2 abcd efgh) 3 Byte.x00)
                                  (log_of2 abcd efgh) 14).
  - vm_compute. discriminate.
  - vm_compute. reflexivity.
  - vm_compute. reflexivity.
Defined.

(** X15: a payload of at most 1024 bytes appended to a file is found
    from the old end of the file, whatever the file held: [Lookup] from
    there returns the payload and the new end of the file (its length
    being an [int64]). *)
Theorem Append_then_Lookup_from_old_end (file b : list byte) :
  Z.of_nat (length b) <= maxChunkSize ->
  stream_fits (fst (Append file b)) ->
  Lookup (fst (Append file b)) (Z.of_nat (length file))
  = Some (inr (b, Z.of_nat (length (fst (Append file b))))).
Proof.
  intros Hb. rewrite Append_chunk by exact Hb. cbn [fst]. intros Hfit.
  apply Lookup_Return.
  pose proof (Lookup_pass_chunk file b []) as H. rewrite app_nil_r in H.
  rewrite H by assumption. cbn [fst].
  rewrite length_app, length_chunk. f_equal. lia.
Qed.

Lemma Append_then_Lookup_from_old_end_witness :
  Lookup (fst (Append (firstn 7 (chunk abcd)) efgh)) 7 = Some (inr (efgh, 21)).
Proof.
  apply (Append_then_Lookup_from_old_end (firstn 7 (chunk abcd)) efgh).
  - vm_compute. discriminate.
  - vm_compute. discriminate.
Defined.

Lemma readU16_range r size r' : readU16 r = inr (size, r') -> 0 <= size < 2 ^ 16.
Proof.
  unfold readU16.
  destruct (io.ReadFull r 2) as [err|[buf r1]] eqn:E; [discriminate|].
  apply ReadFull_inv in E. destruct E as (-> & -> & Hlen).
  destruct r as [|h [|l r]]; try (simpl in Hlen; lia).
  change (firstn 2 (h :: l :: r)) with [h; l].
  intros E. assert (En : size = BigEndian.Uint16 [h; l]) by congruence.
  rewrite En. apply Uint16_range.
Qed.

(** X16: whatever the bytes of the file, a pass of [Lookup] makes at
    most one payload buffer, and of at most 1024 bytes: the length read
    from the file is checked before the buffer is made. *)
Theorem Lookup_allocation_bounded file offset :
  (length (snd (Lookup_pass file offset)) <= 1)%nat /\
  forall size, In size (snd (Lookup_pass file offset)) -> 0 <= size <= maxChunkSize.
Proof.
  unfold Lookup_pass.
  destruct (io.Seek file offset) as [err|[ret r]]; [cbn; split; [lia|tauto]|].
  destruct (negb (ret =? offset)); [cbn; split; [lia|tauto]|].
  destruct (io.ReadFull r 4) as [err|[sync r1]]; [cbn; split; [lia|tauto]|].
  destruct (seek_cookie r1 sync 0 offset) as [err|[offset' r2]];
    [cbn; split; [lia|tauto]|].
  unfold Lookup_chunk.
  destruct (readU16 r2) as [err|[size r3]] eqn:Esize; [cbn; split; [lia|tauto]|].
  apply readU16_range in Esize.
  destruct (Z.gtb_spec size maxChunkSize) as [|Hsize]; [cbn; split; [lia|tauto]|].
  assert (Hin : forall n, In n [size] -> 0 <= n <= maxChunkSize).
  { intros n [<-|[]]. lia. }
  destruct (io.ReadFull r3 (Z.to_nat size)) as [err|[b r4]];
    [cbn [snd length]; split; [lia|exact Hin]|].
  destruct (readU32 r4) as [err|[sum r5]];
    [cbn [snd length]; split; [lia|exact Hin]|].
  match goal with |- context [if ?c then _ else _] => destruct c end;
    cbn [snd length]; (split; [lia|exact Hin]).
Qed.

Lemma Lookup_allocation_bounded_witness : 0 <= 4 <= maxChunkSize.
Proof.
  apply (proj2 (Lookup_allocation_bounded (log_of1 abcd) 0) 4).
  vm_compute. left. reflexivity.
Defined.
